(** * craft-agents-oss: hook configuration schema, title generator and
      auth environment resolver

    A shallow embedding of
    - [packages/shared/src/auth/resolve-auth-env.ts]   ([resolveAuthEnv]),
    - [packages/shared/src/hooks-simple/schemas.ts]    (the zod schemas, the
      [HooksConfigSchema] transform and [zodErrorToIssues]),
    - the session title generator ([generateTitleWithOpenAI],
      [generateSessionTitle]),
    - the session metadata diff of the hook controller, as the specification
      describes it (its source file is not part of this development),
    together with the properties the specification states about them.

    Conventions.
    - A TypeScript [string | null] is an [option string]; JavaScript
      truthiness of such a value ([if (x)], [x || d]) is "not null and not
      the empty string".
    - A plain JavaScript object used as a dictionary is a [gmap string _];
      where the code reads such an object with a key it does not control,
      the members inherited from [Object.prototype] are modelled too.
    - [console.warn] is modelled by the list of messages written, in order.
    - The schemas are parsed as zod 4 parses them; raw values are taken to
      have the types the schemas declare. *)

From Stdlib Require Import Ascii QArith.
From stdpp Require Import base option list strings gmap pretty.

(* ===================================================================== *)
(** * JavaScript values shared by the components *)
(* ===================================================================== *)

Module Js.

(** [if (x)] for [x : string | null]: the string when it is truthy. *)
Definition truthy (x : option string) : option string :=
  match x with
  | Some s => if decide (s = "") then None else Some s
  | None => None
  end.

(** [x || d] for [x : string | null]. *)
Definition or_else (x : option string) (d : string) : string :=
  match truthy x with
  | Some s => s
  | None => d
  end.

(** The double quote character, as a one-character string. *)
Definition dquote : string := String (ascii_of_nat 34) EmptyString.

(** [Array.prototype.join]. *)
Fixpoint join (sep : string) (l : list string) : string :=
  match l with
  | [] => ""
  | [x] => x
  | x :: rest => x +:+ sep +:+ join sep rest
  end.

End Js.

(* ===================================================================== *)
(** * Auth environment resolver (resolve-auth-env.ts) *)
(* ===================================================================== *)

Module AuthEnv.

(** [AuthType] is declared in [config/types.ts]; at run time it is a string,
    and the resolver only compares it with string literals. *)
Definition AuthType := string.

Record Billing := {
  type : option AuthType;
  hasCredentials : bool;
  apiKey : option string;
  claudeOAuthToken : option string;
}.

Record AuthEnvInput := {
  billing : Billing;
  customBaseUrl : option string;
}.

Record AuthEnvResult := {
  set : gmap string string;
  delete : list string;
  error : option string;
}.

Definition ANTHROPIC_BASE_URL : string := "ANTHROPIC_BASE_URL".
Definition ANTHROPIC_API_KEY : string := "ANTHROPIC_API_KEY".
Definition CLAUDE_CODE_OAUTH_TOKEN : string := "CLAUDE_CODE_OAUTH_TOKEN".

Definition resolveAuthEnv (input : AuthEnvInput) : AuthEnvResult :=
  if decide (type (billing input) = Some "bedrock") then
    {| set := ∅; delete := []; error := None |}
  else
    match Js.truthy (customBaseUrl input) with
    | Some url =>
        {| set := <[ANTHROPIC_BASE_URL := url]>
                    (<[ANTHROPIC_API_KEY :=
                         Js.or_else (apiKey (billing input)) "not-needed"]> ∅);
           delete := [CLAUDE_CODE_OAUTH_TOKEN];
           error := None |}
    | None =>
        match (if decide (type (billing input) = Some "oauth_token")
               then Js.truthy (claudeOAuthToken (billing input)) else None) with
        | Some token =>
            {| set := <[CLAUDE_CODE_OAUTH_TOKEN := token]> ∅;
               delete := [ANTHROPIC_API_KEY; ANTHROPIC_BASE_URL];
               error := None |}
        | None =>
            match Js.truthy (apiKey (billing input)) with
            | Some key =>
                {| set := <[ANTHROPIC_API_KEY := key]> ∅;
                   delete := [CLAUDE_CODE_OAUTH_TOKEN; ANTHROPIC_BASE_URL];
                   error := None |}
            | None =>
                {| set := ∅; delete := [];
                   error := Some "No authentication configured" |}
            end
        end
    end.

(** ** Sample inputs *)

(** An OAuth-token billing mode with a token present, and a custom endpoint
    without an API key: the endpoint rule fires, the OAuth rule does not. *)
Definition oauth_with_custom_endpoint : AuthEnvInput :=
  {| billing := {| type := Some "oauth_token"; hasCredentials := true;
                   apiKey := None; claudeOAuthToken := Some "oauth-token-123" |};
     customBaseUrl := Some "http://localhost:11434" |}.

(** Nothing configured at all. *)
Definition nothing_configured : AuthEnvInput :=
  {| billing := {| type := None; hasCredentials := false;
                   apiKey := None; claudeOAuthToken := None |};
     customBaseUrl := None |}.

(** A direct API key; [flag] is the [hasCredentials] field. *)
Definition api_key_input (flag : bool) : AuthEnvInput :=
  {| billing := {| type := Some "api_key"; hasCredentials := flag;
                   apiKey := Some "sk-ant-key"; claudeOAuthToken := None |};
     customBaseUrl := None |}.

(** An OAuth billing mode whose token is the empty string, with an API key
    stored beside it. *)
Definition oauth_without_token : AuthEnvInput :=
  {| billing := {| type := Some "oauth_token"; hasCredentials := true;
                   apiKey := Some "sk-ant-key"; claudeOAuthToken := Some "" |};
     customBaseUrl := None |}.

(** The Claude Max subscription of the tests. *)
Definition oauth_subscription : AuthEnvInput :=
  {| billing := {| type := Some "oauth_token"; hasCredentials := true;
                   apiKey := None; claudeOAuthToken := Some "oauth-token-123" |};
     customBaseUrl := None |}.

End AuthEnv.

(* ===================================================================== *)
(** * Hook configuration schema (hooks-simple/schemas.ts) *)
(* ===================================================================== *)

Module Hooks.

(** ** The shapes the zod schemas describe *)

(** [HookDefinitionSchema]: a union discriminated by [type].  A JSON number
    that reaches the schema is a finite double, hence a rational. *)
Inductive HookDefinition :=
  | CommandHook (command : string) (timeout : option Q)
  | PromptHook (prompt : string).

Inductive PermissionMode := safe | ask | allow_all.

(** [HookMatcherSchema]. *)
Record HookMatcher := {
  matcher : option string;
  cron : option string;
  timezone : option string;
  permissionMode : option PermissionMode;
  labels : option (list string);
  enabled : option bool;
  hooks : list HookDefinition;
}.

(** The input of [HooksConfigSchema]: [hooks] is a record, read by the code
    through [Object.entries], so it is kept as its list of entries in
    property order (keys are pairwise distinct in a JavaScript object). *)
Record RawConfig := {
  raw_version : option Q;
  raw_hooks : option (list (string * list HookMatcher));
}.

(** The output of the schema's transform. *)
Record HooksConfig := {
  version : option Q;
  valid_hooks : gmap string (list HookMatcher);
}.

(** ** Validation: the issues zod collects *)

Inductive PathSegment :=
  | Key (k : string)
  | Index (i : nat).

Record ZodIssue := {
  issue_path : list PathSegment;
  issue_message : string;
}.

Section Validation.

(** The message zod attaches to a failed [.positive()] check; its text
    belongs to the zod release in use, not to this repository. *)
Variable positive_message : string.

(** [CommandHookSchema] and [PromptHookSchema]: [.min(1, ...)] on the
    command or prompt, [.positive()] on a timeout that is present. *)
Definition check_definition (path : list PathSegment) (d : HookDefinition)
  : list ZodIssue :=
  match d with
  | CommandHook command timeout =>
      (if decide (command = "")
       then [ {| issue_path := path ++ [Key "command"];
                 issue_message := "Command cannot be empty" |} ]
       else [])
      ++
      match timeout with
      | Some t =>
          if Qlt_le_dec 0 t then []
          else [ {| issue_path := path ++ [Key "timeout"];
                    issue_message := positive_message |} ]
      | None => []
      end
  | PromptHook prompt =>
      if decide (prompt = "")
      then [ {| issue_path := path ++ [Key "prompt"];
                issue_message := "Prompt cannot be empty" |} ]
      else []
  end.

(** [z.array(schema)]: element number [i] is checked at [path ++ [Index i]]. *)
Fixpoint check_array {A : Type} (check : list PathSegment → A → list ZodIssue)
    (path : list PathSegment) (start : nat) (items : list A) : list ZodIssue :=
  match items with
  | [] => []
  | x :: rest =>
      check (path ++ [Index start]) x ++ check_array check path (S start) rest
  end.

(** [HookMatcherSchema]: only [hooks] carries checks beyond the types,
    [.min(1, ...)] on the array and the definition schema on its elements. *)
Definition check_matcher (path : list PathSegment) (m : HookMatcher)
  : list ZodIssue :=
  (match hooks m with
   | [] => [ {| issue_path := path ++ [Key "hooks"];
                issue_message := "At least one hook required" |} ]
   | _ :: _ => []
   end)
  ++ check_array check_definition (path ++ [Key "hooks"]) 0 (hooks m).

(** [z.record(z.string(), z.array(HookMatcherSchema))].  The record parser
    of zod 4 goes over the own keys of its input and skips the key
    [__proto__]: the value under it is not validated. *)
Fixpoint check_record (path : list PathSegment)
    (entries : list (string * list HookMatcher)) : list ZodIssue :=
  match entries with
  | [] => []
  | (event, matchers) :: rest =>
      (if decide (event = "__proto__") then []
       else check_array check_matcher (path ++ [Key event]) 0 matchers)
      ++ check_record path rest
  end.

(** The object schema under the transform: [version] has no check beyond its
    type, [hooks] defaults to the empty record. *)
Definition check_config (raw : RawConfig) : list ZodIssue :=
  check_record [Key "hooks"] (default [] (raw_hooks raw)).

End Validation.

(** The entries of the record the parser hands on: those of its input but
    for an own key [__proto__], which it leaves out of its output. *)
Definition record_output (entries : list (string * list HookMatcher))
  : list (string * list HookMatcher) :=
  filter (λ entry, entry.1 ≠ "__proto__") entries.

(** ** The transform: deprecated names, unknown names *)

(** What reading [obj[key]] on an object literal yields: an own property, a
    member inherited from [Object.prototype], or [undefined]. *)
Inductive PropertyRead (A : Type) :=
  | OwnProperty (a : A)
  | InheritedMember (name : string)
  | Undefined.
Arguments OwnProperty {A} a.
Arguments InheritedMember {A} name.
Arguments Undefined {A}.

(** The property names every object literal inherits. *)
Definition OBJECT_PROTOTYPE_MEMBERS : list string :=
  [ "constructor"; "hasOwnProperty"; "isPrototypeOf"; "propertyIsEnumerable";
    "toLocaleString"; "toString"; "valueOf";
    "__defineGetter__"; "__defineSetter__";
    "__lookupGetter__"; "__lookupSetter__"; "__proto__" ].

Definition read_property {A : Type} (obj : gmap string A) (key : string)
  : PropertyRead A :=
  match obj !! key with
  | Some a => OwnProperty a
  | None =>
      if decide (key ∈ OBJECT_PROTOTYPE_MEMBERS) then InheritedMember key
      else Undefined
  end.

(** The string an inherited member turns into when it is used in a template
    literal or as a property key.  [constructor] is the function [Object],
    [__proto__] reads as the prototype object itself, every other member is a
    native function under its own name (rendered as V8 does). *)
Definition inherited_to_string (name : string) : string :=
  if decide (name = "__proto__") then "[object Object]"
  else "function "
       +:+ (if decide (name = "constructor") then "Object" else name)
       +:+ "() { [native code] }".

Definition DEPRECATED_EVENTS : gmap string string :=
  {[ "TodoStateChange" := "StatusStateChange" ]}.

(** [const renamedTo = DEPRECATED_EVENTS[event]; if (renamedTo)]: the string
    [renamedTo] stands for in the branch, when it is truthy. *)
Definition renamedTo (event : string) : option string :=
  match read_property DEPRECATED_EVENTS event with
  | OwnProperty s => if decide (s = "") then None else Some s
  | InheritedMember name => Some (inherited_to_string name)
  | Undefined => None
  end.

(** The variables the loop of the transform updates, and the warnings
    written so far. *)
Record LoopState := {
  validHooks : gmap string (list HookMatcher);
  invalidEvents : list string;
  warnings : list string;
}.

Definition deprecated_warning (event renamed : string) : string :=
  "[hooks] " +:+ Js.dquote +:+ event +:+ Js.dquote +:+ " is deprecated, use "
  +:+ Js.dquote +:+ renamed +:+ Js.dquote +:+ " instead".

Definition unknown_warning (invalid : list string) : string :=
  "[hooks] Unknown event types ignored: " +:+ Js.join ", " invalid.

(** [validHooks[key] = [...(validHooks[key] ?? []), ...matchers]].  The keys
    the loop uses here are never names of inherited members (see
    [renamedTo]: such an event takes the first branch, and what it is renamed
    to is no such name), so the read is the own property or [undefined]. *)
Definition merge_into (key : string) (matchers : list HookMatcher)
    (vh : gmap string (list HookMatcher)) : gmap string (list HookMatcher) :=
  <[key := default [] (vh !! key) ++ matchers]> vh.

Section Transform.

(** [VALID_EVENTS = [...APP_EVENTS, ...AGENT_EVENTS]]; both lists are
    declared in [hooks-simple/types.ts]. *)
Variable VALID_EVENTS : list string.

(** One iteration of [for (const [event, matchers] of Object.entries(data.hooks))]. *)
Definition loop_body (st : LoopState) (entry : string * list HookMatcher)
  : LoopState :=
  let '(event, matchers) := entry in
  match renamedTo event with
  | Some renamed =>
      {| validHooks := merge_into renamed matchers (validHooks st);
         invalidEvents := invalidEvents st;
         warnings := warnings st ++ [deprecated_warning event renamed] |}
  | None =>
      if decide (event ∈ VALID_EVENTS) then
        {| validHooks := merge_into event matchers (validHooks st);
           invalidEvents := invalidEvents st;
           warnings := warnings st |}
      else
        {| validHooks := validHooks st;
           invalidEvents := invalidEvents st ++ [event];
           warnings := warnings st |}
  end.

Definition loop (entries : list (string * list HookMatcher)) : LoopState :=
  foldl loop_body
        {| validHooks := ∅; invalidEvents := []; warnings := [] |} entries.

(** The function given to [.transform]: the configuration it returns and
    the warnings it writes. *)
Definition transform (version : option Q)
    (entries : list (string * list HookMatcher)) : HooksConfig * list string :=
  let st := loop entries in
  ({| version := version; valid_hooks := validHooks st |},
   warnings st
   ++ match invalidEvents st with
      | [] => []
      | _ :: _ => [unknown_warning (invalidEvents st)]
      end).

Variable positive_message : string.

Inductive SafeParseResult :=
  | Success (data : HooksConfig) (warned : list string)
  | Failure (issues : list ZodIssue).

(** [HooksConfigSchema.safeParse]: the transform runs on the data the
    object schema hands on, when that schema found no issue; any issue makes
    the whole parse fail. *)
Definition safeParse (raw : RawConfig) : SafeParseResult :=
  match check_config positive_message raw with
  | [] =>
      let '(config, warned) :=
        transform (raw_version raw)
                  (record_output (default [] (raw_hooks raw))) in
      Success config warned
  | issue :: more => Failure (issue :: more)
  end.

End Transform.

(** The list a loop state holds for the current status-change name. *)
Definition status_matchers (st : LoopState) : list HookMatcher :=
  default [] (validHooks st !! "StatusStateChange").

(** ** zodErrorToIssues *)

Record ValidationIssue := {
  file : string;
  path : string;
  message : string;
  severity : string;
}.

Definition segment_to_string (s : PathSegment) : string :=
  match s with
  | Key k => k
  | Index i => pretty i
  end.

(** [issue.path.join('.') || 'root'] *)
Definition dotted_path (p : list PathSegment) : string :=
  Js.or_else (Some (Js.join "." (segment_to_string <$> p))) "root".

Definition zodErrorToIssues (issues : list ZodIssue) (file : string)
  : list ValidationIssue :=
  (λ issue, {| file := file;
               path := dotted_path (issue_path issue);
               message := issue_message issue;
               severity := "error" |}) <$> issues.

(** ** Matcher index *)

(** Modelled from the spec: [getMatchersForEvent] belongs to
    [hooks-simple/hook-system.ts], which is not among the sources.  Section
    4.2: the index is built from the validated configuration, and a lookup
    returns the event's ordered list of matchers, "possibly empty; never
    fails". *)
Definition getMatchersForEvent (config : HooksConfig) (event : string)
  : list HookMatcher :=
  default [] (valid_hooks config !! event).

(** ** What the claims call an unknown key *)

(** The keys of the raw configuration that are neither in the deprecation
    table nor valid events, in the order of the raw input. *)
Definition unknown_keys (VALID_EVENTS : list string)
    (entries : list (string * list HookMatcher)) : list string :=
  filter (λ event, DEPRECATED_EVENTS !! event = None ∧ event ∉ VALID_EVENTS)
         entries.*1.

(** ** What the claims call a violation of the matcher shape *)

(** A command or prompt definition with an empty string, a timeout that is
    not strictly positive, or a [hooks] list without a definition. *)
Inductive violates_shape (m : HookMatcher) : Prop :=
  | no_definition :
      hooks m = [] → violates_shape m
  | empty_command (j : nat) (timeout : option Q) :
      hooks m !! j = Some (CommandHook "" timeout) → violates_shape m
  | timeout_not_positive (j : nat) (command : string) (t : Q) :
      hooks m !! j = Some (CommandHook command (Some t)) → (t <= 0)%Q →
      violates_shape m
  | empty_prompt (j : nat) :
      hooks m !! j = Some (PromptHook "") → violates_shape m.

(** ** Sample configurations *)

Definition command_matcher (pattern command : string) : HookMatcher :=
  {| matcher := Some pattern; cron := None; timezone := None;
     permissionMode := None; labels := None; enabled := None;
     hooks := [CommandHook command None] |}.

(** The two matchers of the test "merges matchers when both old and new
    names are present". *)
Definition legacy_matcher : HookMatcher := command_matcher "done" "echo legacy".
Definition current_matcher : HookMatcher := command_matcher "in_progress" "echo new".

(** An event list that holds the current status-change name. *)
Definition sample_events : list string :=
  ["StatusStateChange"; "SessionStart"].

(** The raw hooks of that test, legacy name first. *)
Definition both_names : list (string * list HookMatcher) :=
  [ ("TodoStateChange", [legacy_matcher]);
    ("StatusStateChange", [current_matcher]) ].

(** Raw hooks with the legacy name and a name that is no event at all. *)
Definition legacy_and_unknown : list (string * list HookMatcher) :=
  [ ("TodoStateChange", [legacy_matcher]);
    ("NoSuchEvent", [current_matcher]) ].

(** Raw hooks under two valid names only. *)
Definition two_valid_names : list (string * list HookMatcher) :=
  [ ("SessionStart", [legacy_matcher]);
    ("StatusStateChange", [current_matcher]) ].

(** Raw hooks with a key that names a member every object inherits. *)
Definition inherited_key : list (string * list HookMatcher) :=
  [ ("StatusStateChange", [current_matcher]);
    ("toString", [legacy_matcher]) ].

(** A matcher whose only definition is a command with a timeout of zero. *)
Definition zero_timeout_matcher : HookMatcher :=
  {| matcher := None; cron := None; timezone := None;
     permissionMode := None; labels := None; enabled := None;
     hooks := [CommandHook "echo done" (Some 0%Q)] |}.

(** A matcher without any definition, and a raw configuration that holds it
    under the key [__proto__] (as [JSON.parse] makes it: an own property). *)
Definition empty_matcher : HookMatcher :=
  {| matcher := None; cron := None; timezone := None;
     permissionMode := None; labels := None; enabled := None;
     hooks := [] |}.

Definition proto_key_config : RawConfig :=
  {| raw_version := None;
     raw_hooks := Some [("__proto__", [empty_matcher])] |}.

Definition zero_timeout_config : RawConfig :=
  {| raw_version := None;
     raw_hooks := Some [("StatusStateChange", [zero_timeout_matcher])] |}.

End Hooks.

(* ===================================================================== *)
(** * Session title generator *)
(* ===================================================================== *)

Module TitleGenerator.

(** A JavaScript string is a sequence of UTF-16 code units; [length],
    [slice] and [trim] count and cut code units. *)
Definition JsString := list N.

Definition of_string (s : string) : JsString :=
  N_of_ascii <$> String.list_ascii_of_string s.

(** The code units [String.prototype.trim] strips: ECMAScript's WhiteSpace
    and LineTerminator. *)
Definition is_white_space (c : N) : bool :=
  bool_decide (c ∈ [9; 10; 11; 12; 13; 32; 160; 5760; 8232; 8233; 8239; 8287;
                    12288; 65279]%N)
  || ((8192 <=? c)%N && (c <=? 8202)%N).

Fixpoint trimStart (s : JsString) : JsString :=
  match s with
  | [] => []
  | c :: rest => if is_white_space c then trimStart rest else s
  end.

Definition trimEnd (s : JsString) : JsString :=
  reverse (trimStart (reverse s)).

Definition trim (s : JsString) : JsString := trimEnd (trimStart s).

(** [lines.join('\n')] *)
Fixpoint join_lines (lines : list JsString) : JsString :=
  match lines with
  | [] => []
  | [l] => l
  | l :: rest => l ++ [10%N] ++ join_lines rest
  end.

(** Truthiness of an optional string. *)
Definition truthy (x : option JsString) : option JsString :=
  match x with
  | Some (c :: s) => Some (c :: s)
  | _ => None
  end.

Inductive TitleProvider := anthropic | openai.

Record OpenAICredentials := {
  apiKey : option JsString;
  accessToken : option JsString;
}.

(** [TitleGeneratorOptions & { modelOverride?: string }] *)
Record TitleGeneratorOptions := {
  provider : option TitleProvider;
  credentials : option OpenAICredentials;
  summarizationModel : option JsString;
  baseUrl : option JsString;
  modelOverride : option JsString;
}.

(** What the SDK's [query] yields, as far as the generator looks at it. *)
Inductive ContentBlock :=
  | TextBlock (text : JsString)
  | OtherBlock.

Inductive SDKMessage :=
  | AssistantMessage (content : list ContentBlock)
  | OtherMessage.

(** One run of the async generator [query(...)]: the messages it yields, and
    whether it ends by throwing instead of finishing. *)
Record QueryRun := {
  yielded : list SDKMessage;
  throws : bool;
}.

(** One chat-completions request, as far as the generator looks at it. *)
Inductive ChatResponse :=
  | RequestFails
      (* fetch rejects, or reading or decoding the body throws *)
  | NotOk
      (* [!response.ok] *)
  | Choice (content : option JsString)
      (* [data.choices?.[0]?.message?.content] *).

(** [title += block.text] over the text blocks of the assistant messages. *)
Definition block_text (b : ContentBlock) : JsString :=
  match b with
  | TextBlock text => text
  | OtherBlock => []
  end.

Definition message_text (m : SDKMessage) : JsString :=
  match m with
  | AssistantMessage content => concat (block_text <$> content)
  | OtherMessage => []
  end.

Definition collect_title (messages : list SDKMessage) : JsString :=
  concat (message_text <$> messages).

(** [if (trimmed.length > 0 && trimmed.length < 100) return trimmed] and the
    [return null] the code falls through to. *)
Definition validate_length (trimmed : JsString) : option JsString :=
  if (0 <? length trimmed) && (length trimmed <? 100) then Some trimmed
  else None.

(** ** What the claims call trimming, and the text of a query *)

(** [title] is [text] trimmed: [text] is [title] between two runs of white
    space, and [title] neither starts nor ends with white space.  This says
    what [String.prototype.trim] returns without saying how. *)
Definition trimmed_form (text title : JsString) : Prop :=
  (∃ before after,
     text = before ++ title ++ after
     ∧ Forall (λ c, is_white_space c = true) before
     ∧ Forall (λ c, is_white_space c = true) after)
  ∧ (∀ c, head title = Some c → is_white_space c = false)
  ∧ (∀ c, last title = Some c → is_white_space c = false).

(** The texts of the text blocks of the assistant messages, in the order
    the query yielded them. *)
Definition assistant_texts (messages : list SDKMessage) : list JsString :=
  messages ≫= λ m,
    match m with
    | AssistantMessage content =>
        content ≫= λ b, match b with
                        | TextBlock text => [text]
                        | OtherBlock => []
                        end
    | OtherMessage => []
    end.

Section Generator.

(** The collaborators: the agent SDK, the HTTP endpoint, and the defaults
    read from [agent/options.ts] and [config/models.ts]. *)
Variable SdkOptions : Type.
Variable getDefaultOptions : SdkOptions.
Variable getDefaultSummarizationModel : JsString.
Variable query :
  JsString (* prompt *) → SdkOptions → JsString (* model *) → nat (* maxTurns *)
  → QueryRun.
Variable fetch_chat_completions :
  JsString (* url *) → JsString (* bearer token *) → JsString (* model *)
  → JsString (* prompt *) → ChatResponse.

(** [const authToken = credentials.apiKey || credentials.accessToken], when
    it is truthy. *)
Definition authToken (creds : OpenAICredentials) : option JsString :=
  truthy (match truthy (apiKey creds) with
          | Some k => Some k
          | None => accessToken creds
          end).

(** [`${baseUrl ?? 'https://api.openai.com/v1'}/chat/completions`] *)
Definition chat_completions_url (base : option JsString) : JsString :=
  default (of_string "https://api.openai.com/v1") base
  ++ of_string "/chat/completions".

Definition generateTitleWithOpenAI (prompt : JsString)
    (creds : OpenAICredentials) (model : JsString) (base : option JsString)
  : option JsString :=
  match authToken creds with
  | None => None
  | Some token =>
      match fetch_chat_completions (chat_completions_url base) token model
                                   prompt with
      | RequestFails => None
      | NotOk => None
      | Choice content =>
          match truthy content with
          | Some text => validate_length (trim text)
          | None => None
          end
      end
  end.

Definition title_prompt (userMessage : JsString) : JsString :=
  let userSnippet := take 500 userMessage in
  join_lines
    [ of_string "What is the user trying to do? Reply with ONLY a short task description (2-5 words).";
      of_string "Start with a verb. Use plain text only - no markdown.";
      of_string ("Examples: " +:+ Js.dquote +:+ "Fix authentication bug" +:+ Js.dquote
                 +:+ ", " +:+ Js.dquote +:+ "Add dark mode" +:+ Js.dquote
                 +:+ ", " +:+ Js.dquote +:+ "Refactor API layer" +:+ Js.dquote
                 +:+ ", " +:+ Js.dquote +:+ "Explain codebase structure" +:+ Js.dquote);
      [];
      of_string "User: " ++ userSnippet;
      [];
      of_string "Task:" ].

(** [options?.modelOverride ?? options?.summarizationModel ?? getDefaultSummarizationModel()] *)
Definition title_model (options : option TitleGeneratorOptions) : JsString :=
  match options ≫= modelOverride with
  | Some m => m
  | None => default getDefaultSummarizationModel (options ≫= summarizationModel)
  end.

Definition generateSessionTitle (userMessage : JsString)
    (options : option TitleGeneratorOptions) : option JsString :=
  let prompt := title_prompt userMessage in
  match default anthropic (options ≫= provider), options ≫= credentials with
  | openai, Some creds =>
      generateTitleWithOpenAI prompt creds (title_model options)
                              (options ≫= baseUrl)
  | _, _ =>
      let run := query prompt getDefaultOptions (title_model options) 1 in
      if throws run then None
      else validate_length (trim (collect_title (yielded run)))
  end.

(** ** The collaborator's answer, for stating the properties *)

(** The text the external collaborator returned to this call of
    [generateSessionTitle]: the text blocks of the assistant messages of a
    query that finished, or the content of the first choice of a successful
    chat completion; none when the collaborator failed or threw, answered
    without content, or was not called for want of a credential. *)
Definition returned_text (userMessage : JsString)
    (options : option TitleGeneratorOptions) : option JsString :=
  match default anthropic (options ≫= provider), options ≫= credentials with
  | openai, Some creds =>
      match authToken creds with
      | None => None
      | Some token =>
          match fetch_chat_completions (chat_completions_url (options ≫= baseUrl))
                  token (title_model options) (title_prompt userMessage) with
          | Choice content => content
          | RequestFails | NotOk => None
          end
      end
  | _, _ =>
      let run := query (title_prompt userMessage) getDefaultOptions
                       (title_model options) 1 in
      if throws run then None else Some (collect_title (yielded run))
  end.

(** ** regenerateSessionTitle *)

(** [parts.join(sep)] *)
Fixpoint join_with (sep : JsString) (parts : list JsString) : JsString :=
  match parts with
  | [] => []
  | [p] => p
  | p :: rest => p ++ sep ++ join_with sep rest
  end.

Definition regenerate_prompt (recentUserMessages : list JsString)
    (lastAssistantResponse : JsString) : JsString :=
  let userContext :=
    join_with [10%N; 10%N] ((λ msg, take 300 msg) <$> recentUserMessages) in
  let assistantSnippet := take 500 lastAssistantResponse in
  join_lines
    [ of_string "Based on these recent messages, what is the current focus of this conversation?";
      of_string "Reply with ONLY a short task description (2-5 words).";
      of_string "Start with a verb. Use plain text only - no markdown.";
      of_string ("Examples: " +:+ Js.dquote +:+ "Fix authentication bug" +:+ Js.dquote
                 +:+ ", " +:+ Js.dquote +:+ "Add dark mode" +:+ Js.dquote
                 +:+ ", " +:+ Js.dquote +:+ "Refactor API layer" +:+ Js.dquote
                 +:+ ", " +:+ Js.dquote +:+ "Explain codebase structure" +:+ Js.dquote);
      [];
      of_string "Recent user messages:";
      userContext;
      [];
      of_string "Latest assistant response:";
      assistantSnippet;
      [];
      of_string "Current focus:" ].

Definition regenerateSessionTitle (recentUserMessages : list JsString)
    (lastAssistantResponse : JsString)
    (options : option TitleGeneratorOptions) : option JsString :=
  let prompt := regenerate_prompt recentUserMessages lastAssistantResponse in
  match default anthropic (options ≫= provider), options ≫= credentials with
  | openai, Some creds =>
      generateTitleWithOpenAI prompt creds (title_model options)
                              (options ≫= baseUrl)
  | _, _ =>
      let run := query prompt getDefaultOptions (title_model options) 1 in
      if throws run then None
      else validate_length (trim (collect_title (yielded run)))
  end.

End Generator.

(** ** Sample collaborators *)

(** An SDK whose every query yields one assistant message with one text
    block, the given text, and finishes. *)
Definition sdk_answering (text : JsString)
  : JsString → unit → JsString → nat → QueryRun :=
  λ _ _ _ _, {| yielded := [AssistantMessage [TextBlock text]];
                throws := false |}.

(** An SDK whose every query throws after a first message. *)
Definition sdk_throwing (text : JsString)
  : JsString → unit → JsString → nat → QueryRun :=
  λ _ _ _ _, {| yielded := [AssistantMessage [TextBlock text]];
                throws := true |}.

(** An endpoint that answers every request with the given content. *)
Definition endpoint_answering (text : JsString)
  : JsString → JsString → JsString → JsString → ChatResponse :=
  λ _ _ _ _, Choice (Some text).

(** Options that select the OpenAI endpoint with the given credentials. *)
Definition openai_options (creds : OpenAICredentials) : TitleGeneratorOptions :=
  {| provider := Some openai; credentials := Some creds;
     summarizationModel := None; baseUrl := None; modelOverride := None |}.

(** An SDK whose every query yields a system message, an assistant message
    with a tool-use block between two text blocks, and a result message. *)
Definition sdk_answering_in_pieces (first second : JsString)
  : JsString → unit → JsString → nat → QueryRun :=
  λ _ _ _ _, {| yielded := [ OtherMessage;
                             AssistantMessage [TextBlock first; OtherBlock;
                                               TextBlock second];
                             OtherMessage ];
                throws := false |}.

(** An endpoint that is never reached. *)
Definition endpoint_down : JsString → JsString → JsString → JsString → ChatResponse :=
  λ _ _ _ _, RequestFails.

End TitleGenerator.

(* ===================================================================== *)
(** * Session metadata store and diff *)
(* ===================================================================== *)

Module SessionMetadata.

Section Store.

(** The values metadata fields hold, compared by the diff. *)
Context {Value : Type} `{EqDecision Value}.

(** The static field-to-event mapping; a field it does not map produces no
    event. *)
Variable event_of_field : string → option string.

Record Payload := {
  oldState : option Value;
  newState : Value;
}.

Record Emission := {
  event : string;
  payload : Payload;
}.

(** The sessions the controller tracks, and what has been emitted on its
    event bus so far. *)
Record HookSystem := {
  sessions : gmap string (gmap string Value);
  eventBus : list Emission;
}.

(** Modelled from the spec: one field of the partial update of
    [updateSessionMetadata] (see below), which is not among the sources:
    merge the field over the stored state and, when its value changed (the
    old value may be unset), emit the event the field maps to. *)
Definition update_field (acc : gmap string Value * list Emission)
    (entry : string * Value) : gmap string Value * list Emission :=
  let '(stored, emitted) := acc in
  let '(field, new) := entry in
  let old := stored !! field in
  (<[field := new]> stored,
   if decide (old = Some new) then emitted
   else match event_of_field field with
        | Some ev =>
            emitted ++ [ {| event := ev;
                            payload := {| oldState := old; newState := new |} |} ]
        | None => emitted
        end).

(** Modelled from the spec: [updateSessionMetadata] belongs to
    [hooks-simple/hook-system.ts], which is not among the sources.  Section
    4.3: it "merges partialMetadata over the stored state field-by-field; for
    each field whose value actually changed (old ≠ new, including old being
    previously unset)" it emits the mapped event "with a payload of at least
    { oldState, newState }", "returns the list of event names actually
    emitted, in the order their underlying fields were processed", and fails
    with "session not found" for a session that is not registered.  The
    partial metadata is its list of entries in property order. *)
Definition updateSessionMetadata (sessionId : string)
    (partialMetadata : list (string * Value)) (sys : HookSystem)
  : option (list string * HookSystem) :=
  match sessions sys !! sessionId with
  | None => None
  | Some stored =>
      let '(merged, emitted) := foldl update_field (stored, []) partialMetadata in
      Some (event <$> emitted,
            {| sessions := <[sessionId := merged]> (sessions sys);
               eventBus := eventBus sys ++ emitted |})
  end.

End Store.

(** ** Sample session *)

(** The one mapping the tests show: the status field maps to the status
    change event. *)
Definition status_field_event (field : string) : option string :=
  if decide (field = "todoState") then Some "StatusStateChange" else None.

(** A controller that tracks session [s1], whose status is [backlog]. *)
Definition backlog_system : HookSystem (Value := string) :=
  {| sessions := {[ "s1" := {[ "todoState" := "backlog" ]} ]};
     eventBus := [] |}.

End SessionMetadata.

(* ===================================================================== *)
(** * Properties of the auth environment resolver *)
(* ===================================================================== *)

Module AuthEnvSpec.

Import AuthEnv.

Lemma truthy_nonempty (s : string) : s ≠ "" → Js.truthy (Some s) = Some s.
Proof. intros Hs. unfold Js.truthy. by destruct (decide (s = "")). Qed.

Lemma truthy_inv (x : option string) (s : string) :
  Js.truthy x = Some s → x = Some s ∧ s ≠ "".
Proof.
  destruct x as [t|]; simpl; [|done].
  destruct (decide (t = "")); [done|]. by intros [= <-].
Qed.

Lemma truthy_None (x : option string) :
  Js.truthy x = None ↔ x = None ∨ x = Some "".
Proof.
  destruct x as [t|]; simpl.
  - destruct (decide (t = "")) as [->|Hne].
    + split; [by right | done].
    + split; [done | intros [? | [= ?]]; done].
  - split; [by left | done].
Qed.

(** The three variable names are pairwise distinct. *)
Lemma names_distinct :
  ANTHROPIC_BASE_URL ≠ ANTHROPIC_API_KEY
  ∧ ANTHROPIC_BASE_URL ≠ CLAUDE_CODE_OAUTH_TOKEN
  ∧ ANTHROPIC_API_KEY ≠ CLAUDE_CODE_OAUTH_TOKEN.
Proof. repeat split; discriminate. Qed.

(** The rule for a custom endpoint, as an equation on the whole result. *)
Lemma resolve_custom (input : AuthEnvInput) (url : string) :
  type (billing input) ≠ Some "bedrock" →
  Js.truthy (customBaseUrl input) = Some url →
  resolveAuthEnv input =
    {| set := <[ANTHROPIC_BASE_URL := url]>
                (<[ANTHROPIC_API_KEY :=
                     Js.or_else (apiKey (billing input)) "not-needed"]> ∅);
       delete := [CLAUDE_CODE_OAUTH_TOKEN];
       error := None |}.
Proof.
  intros Hty Hurl. unfold resolveAuthEnv.
  destruct (decide (type (billing input) = Some "bedrock")); [done|].
  by rewrite Hurl.
Qed.

(** C4: when the billing type is not 'bedrock' and a custom base URL is
    configured (a non-empty string), the result sets ANTHROPIC_BASE_URL to
    that URL, sets ANTHROPIC_API_KEY to the configured key, or to
    'not-needed' when there is no key (null or empty), sets nothing else,
    deletes exactly CLAUDE_CODE_OAUTH_TOKEN and reports no error; the input's
    OAuth token and billing type play no part. *)
Theorem custom_base_url_rule (input : AuthEnvInput) (url : string) :
  type (billing input) ≠ Some "bedrock" →
  customBaseUrl input = Some url →
  url ≠ "" →
  let r := resolveAuthEnv input in
  set r !! ANTHROPIC_BASE_URL = Some url
  ∧ (∀ key, apiKey (billing input) = Some key → key ≠ "" →
       set r !! ANTHROPIC_API_KEY = Some key)
  ∧ (apiKey (billing input) = None ∨ apiKey (billing input) = Some "" →
       set r !! ANTHROPIC_API_KEY = Some "not-needed")
  ∧ dom (set r) = {[ ANTHROPIC_BASE_URL; ANTHROPIC_API_KEY ]}
  ∧ delete r = [CLAUDE_CODE_OAUTH_TOKEN]
  ∧ set r !! CLAUDE_CODE_OAUTH_TOKEN = None
  ∧ error r = None.
Proof.
  intros Hty Hurl Hne r. subst r.
  rewrite (resolve_custom input url Hty); [|by rewrite Hurl, truthy_nonempty].
  destruct names_distinct as (Hbk & Hbo & Hko). simpl.
  split_and!.
  - apply lookup_insert_eq.
  - intros key Hkey Hkne.
    rewrite lookup_insert_ne, lookup_insert_eq by done.
    unfold Js.or_else. by rewrite Hkey, truthy_nonempty.
  - intros Hnone. apply truthy_None in Hnone.
    rewrite lookup_insert_ne, lookup_insert_eq by done.
    unfold Js.or_else. by rewrite Hnone.
  - rewrite !dom_insert_L, dom_empty_L. set_solver.
  - done.
  - by rewrite !lookup_insert_ne, lookup_empty.
  - done.
Qed.

Lemma custom_base_url_rule_witness :
  let r := resolveAuthEnv oauth_with_custom_endpoint in
  set r !! ANTHROPIC_BASE_URL = Some "http://localhost:11434"
  ∧ set r !! ANTHROPIC_API_KEY = Some "not-needed"
  ∧ delete r = [CLAUDE_CODE_OAUTH_TOKEN]
  ∧ set r !! CLAUDE_CODE_OAUTH_TOKEN = None.
Proof.
  destruct (custom_base_url_rule oauth_with_custom_endpoint
              "http://localhost:11434")
    as (Hb & _ & Hk & _ & Hd & Ho & _); [discriminate | reflexivity | discriminate |].
  split_and!; [exact Hb | apply Hk; by left | exact Hd | exact Ho].
Defined.

(** C5: in every result, no variable name is both a key of [set] and an
    element of [delete]. *)
Theorem set_delete_disjoint (input : AuthEnvInput) (name : string) :
  ¬ (is_Some (set (resolveAuthEnv input) !! name)
     ∧ name ∈ delete (resolveAuthEnv input)).
Proof.
  destruct names_distinct as (Hbk & Hbo & Hko).
  unfold resolveAuthEnv.
  destruct (decide (type (billing input) = Some "bedrock")); simpl.
  { intros [_ Hin]. by apply elem_of_nil in Hin. }
  destruct (Js.truthy (customBaseUrl input)) as [url|]; simpl.
  { intros [Hset Hin]. apply list_elem_of_singleton in Hin as ->.
    rewrite !lookup_insert_ne, lookup_empty in Hset by done.
    by destruct Hset. }
  destruct (if decide (type (billing input) = Some "oauth_token")
            then Js.truthy (claudeOAuthToken (billing input)) else None)
    as [token|]; simpl.
  { intros [Hset Hin].
    rewrite !elem_of_cons, elem_of_nil in Hin.
    destruct Hin as [-> | [-> | []]];
      rewrite lookup_insert_ne, lookup_empty in Hset by done;
      by destruct Hset. }
  destruct (Js.truthy (apiKey (billing input))) as [key|]; simpl.
  { intros [Hset Hin].
    rewrite !elem_of_cons, elem_of_nil in Hin.
    destruct Hin as [-> | [-> | []]];
      rewrite lookup_insert_ne, lookup_empty in Hset by done;
      by destruct Hset. }
  intros [_ Hin]. by apply elem_of_nil in Hin.
Qed.

(** C6: when the billing type is not 'bedrock', no custom base URL is
    configured, the billing mode is not OAuth-token-based with a token
    present, and no API key is present, the resolver returns (it is a total
    function: nothing is thrown) the empty [set], the empty [delete] and the
    error string "No authentication configured". *)
Theorem no_authentication_configured (input : AuthEnvInput) :
  type (billing input) ≠ Some "bedrock" →
  (customBaseUrl input = None ∨ customBaseUrl input = Some "") →
  ¬ (type (billing input) = Some "oauth_token"
     ∧ ∃ token, claudeOAuthToken (billing input) = Some token ∧ token ≠ "") →
  (apiKey (billing input) = None ∨ apiKey (billing input) = Some "") →
  resolveAuthEnv input =
    {| set := ∅; delete := []; error := Some "No authentication configured" |}.
Proof.
  intros Hty Hurl Hoauth Hkey. unfold resolveAuthEnv.
  destruct (decide (type (billing input) = Some "bedrock")); [done|].
  apply truthy_None in Hurl, Hkey. rewrite Hurl, Hkey.
  destruct (decide (type (billing input) = Some "oauth_token")) as [Ho|]; [|done].
  destruct (Js.truthy (claudeOAuthToken (billing input))) as [token|] eqn:Htok;
    [|done].
  apply truthy_inv in Htok as [Htok Hne]. destruct Hoauth. eauto.
Qed.

Lemma no_authentication_configured_witness :
  resolveAuthEnv nothing_configured =
    {| set := ∅; delete := []; error := Some "No authentication configured" |}.
Proof.
  apply (no_authentication_configured nothing_configured); simpl.
  - discriminate.
  - by left.
  - intros [Hty _]. discriminate Hty.
  - by left.
Defined.

(** C10: two inputs that agree on everything but [billing.hasCredentials]
    have equal results. *)
Theorem hasCredentials_not_read (input1 input2 : AuthEnvInput) :
  type (billing input1) = type (billing input2) →
  apiKey (billing input1) = apiKey (billing input2) →
  claudeOAuthToken (billing input1) = claudeOAuthToken (billing input2) →
  customBaseUrl input1 = customBaseUrl input2 →
  resolveAuthEnv input1 = resolveAuthEnv input2.
Proof.
  intros Hty Hkey Htok Hurl. unfold resolveAuthEnv.
  by rewrite Hty, Hkey, Htok, Hurl.
Qed.

Lemma hasCredentials_not_read_witness :
  resolveAuthEnv (api_key_input true) = resolveAuthEnv (api_key_input false).
Proof.
  apply (hasCredentials_not_read (api_key_input true) (api_key_input false));
    reflexivity.
Defined.

End AuthEnvSpec.

(* ===================================================================== *)
(** * The auth environment resolver, rule by rule *)
(* ===================================================================== *)

Module AuthEnvRules.

Import AuthEnv.

(** Case analysis along the [if]s of [resolveAuthEnv]; every test that fired
    or failed stays in the context. *)
Ltac resolve_cases input :=
  unfold resolveAuthEnv;
  destruct (decide (type (billing input) = Some "bedrock")) as [?Hbedrock|?Hbedrock];
  [| destruct (Js.truthy (customBaseUrl input)) as [?url|] eqn:?Hurl;
     [| destruct (decide (type (billing input) = Some "oauth_token")) as [?Hoauth|?Hoauth];
        [ destruct (Js.truthy (claudeOAuthToken (billing input))) as [?token|] eqn:?Htoken;
          [| destruct (Js.truthy (apiKey (billing input))) as [?key|] eqn:?Hkey ]
        | destruct (Js.truthy (apiKey (billing input))) as [?key|] eqn:?Hkey ] ] ];
  cbn [set delete error].

Lemma truthy_Some_ne (x : option string) (s : string) :
  Js.truthy x = Some s → x = Some s ∧ s ≠ "".
Proof.
  destruct x as [t|]; simpl; [|done].
  destruct (decide (t = "")); [done|]. by intros [= <-].
Qed.

Lemma or_else_ne (x : option string) (d : string) :
  d ≠ "" → Js.or_else x d ≠ "".
Proof.
  intros Hd. unfold Js.or_else.
  destruct (Js.truthy x) as [s|] eqn:Hx; [|done].
  by apply truthy_Some_ne in Hx as [_ ?].
Qed.

Lemma variable_names_distinct :
  ANTHROPIC_BASE_URL ≠ ANTHROPIC_API_KEY
  ∧ ANTHROPIC_BASE_URL ≠ CLAUDE_CODE_OAUTH_TOKEN
  ∧ ANTHROPIC_API_KEY ≠ CLAUDE_CODE_OAUTH_TOKEN.
Proof. repeat split; discriminate. Qed.

(** When the resolver reports an error, the error is "No authentication
    configured" and the result asks for no change of the environment. *)
Theorem error_changes_nothing (input : AuthEnvInput) (msg : string) :
  error (resolveAuthEnv input) = Some msg →
  msg = "No authentication configured"
  ∧ set (resolveAuthEnv input) = ∅
  ∧ delete (resolveAuthEnv input) = [].
Proof. resolve_cases input; intros [= <-]; done. Qed.

Lemma error_changes_nothing_witness :
  set (resolveAuthEnv nothing_configured) = ∅
  ∧ delete (resolveAuthEnv nothing_configured) = [].
Proof.
  destruct (error_changes_nothing nothing_configured
              "No authentication configured") as (_ & Hset & Hdel);
    [reflexivity | by split].
Defined.

(** Outside the bedrock mode, a result without error decides each of the
    three variables: a name is set or deleted exactly when it is one of
    ANTHROPIC_BASE_URL, ANTHROPIC_API_KEY and CLAUDE_CODE_OAUTH_TOKEN. *)
Theorem every_variable_is_decided (input : AuthEnvInput) (name : string) :
  type (billing input) ≠ Some "bedrock" →
  error (resolveAuthEnv input) = None →
  name ∈ [ANTHROPIC_BASE_URL; ANTHROPIC_API_KEY; CLAUDE_CODE_OAUTH_TOKEN]
  ↔ is_Some (set (resolveAuthEnv input) !! name)
    ∨ name ∈ delete (resolveAuthEnv input).
Proof.
  intros Hty.
  destruct variable_names_distinct as (Hbk & Hbo & Hko).
  resolve_cases input; [done | | | | done | | done]; intros _;
    rewrite !elem_of_cons, !elem_of_nil;
    (split;
     [ intros [-> | [-> | [-> | []]]];
       rewrite ?lookup_insert_eq, ?lookup_insert_ne by done; eauto
     | intros [Hset | Hdel]; [| tauto];
       destruct (decide (name = ANTHROPIC_BASE_URL)) as [|?]; [tauto|];
       destruct (decide (name = ANTHROPIC_API_KEY)) as [|?]; [tauto|];
       destruct (decide (name = CLAUDE_CODE_OAUTH_TOKEN)) as [|?]; [tauto|];
       rewrite ?lookup_insert_ne, lookup_empty in Hset by done;
       by destruct Hset ]).
Qed.

Lemma every_variable_is_decided_witness :
  ANTHROPIC_BASE_URL ∈ delete (resolveAuthEnv oauth_subscription).
Proof.
  destruct (every_variable_is_decided oauth_subscription ANTHROPIC_BASE_URL)
    as [Hdecided _]; [discriminate | reflexivity |].
  destruct Hdecided as [Hset | Hdel]; [by left | | exact Hdel].
  exfalso. destruct Hset as [v Hv]. discriminate Hv.
Defined.

(** No variable is ever set to the empty string. *)
Theorem no_variable_set_to_empty (input : AuthEnvInput) (name value : string) :
  set (resolveAuthEnv input) !! name = Some value → value ≠ "".
Proof.
  resolve_cases input; try (by rewrite lookup_empty);
    intros Hset;
    repeat (apply lookup_insert_Some in Hset as [[_ <-] | [_ Hset]]);
    try (by rewrite lookup_empty in Hset);
    try (by apply or_else_ne);
    match goal with
    | H : Js.truthy _ = Some ?v |- ?v ≠ "" => by apply truthy_Some_ne in H as [_ ?]
    end.
Qed.

Lemma no_variable_set_to_empty_witness : "sk-ant-key" ≠ "".
Proof.
  apply (no_variable_set_to_empty oauth_without_token ANTHROPIC_API_KEY).
  reflexivity.
Defined.

(** What the result holds for each of the three names. *)
Lemma lookup_oauth_token (input : AuthEnvInput) :
  set (resolveAuthEnv input) !! CLAUDE_CODE_OAUTH_TOKEN
  = if decide (type (billing input) = Some "bedrock") then None
    else match Js.truthy (customBaseUrl input) with
         | Some _ => None
         | None =>
             if decide (type (billing input) = Some "oauth_token")
             then Js.truthy (claudeOAuthToken (billing input)) else None
         end.
Proof.
  resolve_cases input; rewrite ?decide_True, ?decide_False by done;
    rewrite ?Htoken; reflexivity.
Qed.

Lemma lookup_base_url (input : AuthEnvInput) :
  set (resolveAuthEnv input) !! ANTHROPIC_BASE_URL
  = if decide (type (billing input) = Some "bedrock") then None
    else Js.truthy (customBaseUrl input).
Proof.
  resolve_cases input; rewrite ?decide_True, ?decide_False by done;
    reflexivity.
Qed.

Lemma lookup_api_key (input : AuthEnvInput) :
  set (resolveAuthEnv input) !! ANTHROPIC_API_KEY
  = if decide (type (billing input) = Some "bedrock") then None
    else match Js.truthy (customBaseUrl input) with
         | Some _ => Some (Js.or_else (apiKey (billing input)) "not-needed")
         | None =>
             match (if decide (type (billing input) = Some "oauth_token")
                    then Js.truthy (claudeOAuthToken (billing input))
                    else None) with
             | Some _ => None
             | None => Js.truthy (apiKey (billing input))
             end
         end.
Proof.
  resolve_cases input; rewrite ?decide_True, ?decide_False by done;
    rewrite ?Htoken, ?Hkey; reflexivity.
Qed.

Lemma truthy_Some_iff (x : option string) (s : string) :
  Js.truthy x = Some s ↔ x = Some s ∧ s ≠ "".
Proof.
  split; [apply truthy_Some_ne|].
  intros [-> Hs]. simpl. by destruct (decide (s = "")).
Qed.

(** The OAuth token variable is set exactly under OAuth-token billing with a
    non-empty token and no custom base URL, and then to that token; the base
    URL variable is set exactly when a non-empty custom base URL is given
    outside the bedrock mode, and then to that URL; and the API key and the
    OAuth token are never set together. *)
Theorem when_variables_are_set (input : AuthEnvInput) :
  let r := resolveAuthEnv input in
  (∀ token, set r !! CLAUDE_CODE_OAUTH_TOKEN = Some token ↔
     type (billing input) = Some "oauth_token"
     ∧ claudeOAuthToken (billing input) = Some token ∧ token ≠ ""
     ∧ Js.truthy (customBaseUrl input) = None)
  ∧ (∀ url, set r !! ANTHROPIC_BASE_URL = Some url ↔
       type (billing input) ≠ Some "bedrock"
       ∧ customBaseUrl input = Some url ∧ url ≠ "")
  ∧ ¬ (is_Some (set r !! ANTHROPIC_API_KEY)
       ∧ is_Some (set r !! CLAUDE_CODE_OAUTH_TOKEN)).
Proof.
  cbv zeta. rewrite lookup_api_key. split_and!.
  - intros token. rewrite lookup_oauth_token.
    destruct (decide (type (billing input) = Some "bedrock")) as [Hb|Hb].
    { split; [done|]. intros (Hty & _). rewrite Hty in Hb. discriminate. }
    destruct (Js.truthy (customBaseUrl input)) as [url|].
    { split; [done|]. by intros (_ & _ & _ & ?). }
    destruct (decide (type (billing input) = Some "oauth_token")) as [Ho|Ho].
    + rewrite truthy_Some_iff.
      split; [by intros [? ?] | by intros (_ & ? & ? & _)].
    + split; [done|]. by intros (? & _).
  - intros url. rewrite lookup_base_url.
    destruct (decide (type (billing input) = Some "bedrock")) as [Hb|Hb].
    { split; [done|]. by intros (? & _). }
    rewrite truthy_Some_iff.
    split; [by intros [? ?] | by intros (_ & ? & ?)].
  - rewrite lookup_oauth_token.
    destruct (decide (type (billing input) = Some "bedrock")).
    { by intros [[? ?] _]. }
    destruct (Js.truthy (customBaseUrl input)).
    { by intros [_ [? ?]]. }
    destruct (if decide (type (billing input) = Some "oauth_token")
              then Js.truthy (claudeOAuthToken (billing input)) else None).
    + by intros [[? ?] _].
    + by intros [_ [? ?]].
Qed.

End AuthEnvRules.

(* ===================================================================== *)
(** * Properties of the hook configuration schema *)
(* ===================================================================== *)

Module HooksSpec.

Import Hooks.

(** ** Reading the deprecation table *)

Lemma renamedTo_legacy : renamedTo "TodoStateChange" = Some "StatusStateChange".
Proof. reflexivity. Qed.

Lemma inherited_to_string_not_current (name : string) :
  inherited_to_string name ≠ "StatusStateChange".
Proof.
  unfold inherited_to_string.
  destruct (decide (name = "__proto__")); [discriminate|].
  simpl. discriminate.
Qed.

(** Only the legacy name is renamed to the current name. *)
Lemma renamedTo_current_inv (event : string) :
  renamedTo event = Some "StatusStateChange" → event = "TodoStateChange".
Proof.
  unfold renamedTo, read_property, DEPRECATED_EVENTS.
  destruct (decide (event = "TodoStateChange")) as [->|Hne]; [done|].
  rewrite lookup_singleton_ne by done.
  destruct (decide (event ∈ OBJECT_PROTOTYPE_MEMBERS)); [|done].
  intros [= Heq]. by apply inherited_to_string_not_current in Heq.
Qed.

(** An event that is neither an own key of the table nor the name of a
    member every object inherits is not renamed. *)
Lemma renamedTo_plain (event : string) :
  event ≠ "TodoStateChange" →
  event ∉ OBJECT_PROTOTYPE_MEMBERS →
  renamedTo event = None.
Proof.
  intros Hne Hplain. unfold renamedTo, read_property, DEPRECATED_EVENTS.
  rewrite lookup_singleton_ne by done.
  by destruct (decide (event ∈ OBJECT_PROTOTYPE_MEMBERS)).
Qed.

Lemma current_not_inherited : "StatusStateChange" ∉ OBJECT_PROTOTYPE_MEMBERS.
Proof. compute_done. Qed.

Lemma renamedTo_status : renamedTo "StatusStateChange" = None.
Proof. reflexivity. Qed.

Lemma merge_into_lookup (key : string) (ms : list HookMatcher)
    (vh : gmap string (list HookMatcher)) :
  merge_into key ms vh !! key = Some (default [] (vh !! key) ++ ms).
Proof. unfold merge_into. apply lookup_insert_eq. Qed.

Lemma merge_into_lookup_ne (key other : string) (ms : list HookMatcher)
    (vh : gmap string (list HookMatcher)) :
  key ≠ other → merge_into key ms vh !! other = vh !! other.
Proof. intros Hne. unfold merge_into. by apply lookup_insert_ne. Qed.

Section Transform.

Variable VALID_EVENTS : list string.

Local Abbreviation loop_body := (loop_body VALID_EVENTS).
Local Abbreviation loop := (loop VALID_EVENTS).
Local Abbreviation transform := (transform VALID_EVENTS).

Lemma loop_body_legacy (st : LoopState) (A : list HookMatcher) :
  status_matchers (loop_body st ("TodoStateChange", A)) = status_matchers st ++ A.
Proof.
  unfold status_matchers, Hooks.loop_body. rewrite renamedTo_legacy. simpl.
  by rewrite merge_into_lookup.
Qed.

Lemma loop_body_current (st : LoopState) (B : list HookMatcher) :
  "StatusStateChange" ∈ VALID_EVENTS →
  status_matchers (loop_body st ("StatusStateChange", B)) = status_matchers st ++ B.
Proof.
  intros Hvalid. unfold status_matchers, Hooks.loop_body.
  rewrite renamedTo_status.
  destruct (decide ("StatusStateChange" ∈ VALID_EVENTS)); [|done]. simpl.
  by rewrite merge_into_lookup.
Qed.

Lemma loop_body_other (st : LoopState) (event : string) (ms : list HookMatcher) :
  event ≠ "TodoStateChange" → event ≠ "StatusStateChange" →
  status_matchers (loop_body st (event, ms)) = status_matchers st.
Proof.
  intros Hlegacy Hcurrent. unfold status_matchers, Hooks.loop_body.
  destruct (renamedTo event) as [renamed|] eqn:Hren; simpl.
  - rewrite merge_into_lookup_ne; [done|].
    intros ->. by apply renamedTo_current_inv in Hren.
  - destruct (decide (event ∈ VALID_EVENTS)); simpl; [|done].
    by rewrite merge_into_lookup_ne.
Qed.

(** Entries under other names leave the accumulated list alone. *)
Lemma foldl_other (entries : list (string * list HookMatcher)) (st : LoopState) :
  Forall (λ e, e.1 ≠ "TodoStateChange" ∧ e.1 ≠ "StatusStateChange") entries →
  status_matchers (foldl loop_body st entries) = status_matchers st.
Proof.
  intros Hall. revert st.
  induction Hall as [|[event ms] rest [Hl Hc] _ IH]; intros st; cbn [foldl];
    [done|].
  by rewrite IH, loop_body_other.
Qed.

Lemma getMatchers_status (version : option Q)
    (entries : list (string * list HookMatcher)) :
  getMatchersForEvent (transform version entries).1 "StatusStateChange"
  = status_matchers (loop entries).
Proof. reflexivity. Qed.

(** C1: when the legacy name TodoStateChange is the only event key, the
    configuration the transform returns maps StatusStateChange, and nothing
    else, to that key's matchers, unchanged and in order; looking up the
    legacy name gives the empty list. *)
Theorem legacy_only_is_renamed (version : option Q) (A : list HookMatcher) :
  let config := (transform version [("TodoStateChange", A)]).1 in
  valid_hooks config = {[ "StatusStateChange" := A ]}
  ∧ getMatchersForEvent config "StatusStateChange" = A
  ∧ getMatchersForEvent config "TodoStateChange" = []
  ∧ valid_hooks config !! "TodoStateChange" = None.
Proof.
  assert (Hmap : valid_hooks (transform version [("TodoStateChange", A)]).1
                 = {[ "StatusStateChange" := A ]}).
  { unfold Hooks.transform, Hooks.loop. cbn [foldl fst valid_hooks].
    unfold Hooks.loop_body. rewrite renamedTo_legacy.
    cbn [validHooks]. unfold merge_into.
    by rewrite lookup_empty, insert_empty. }
  cbv zeta. unfold getMatchersForEvent. rewrite Hmap.
  split_and!; [done | by rewrite lookup_singleton_eq | | ];
    by rewrite lookup_singleton_ne.
Qed.

(** ** Both names present *)

Lemma keys_apart (before after : list (string * list HookMatcher))
    (x : string * list HookMatcher) :
  NoDup (before ++ x :: after).*1 →
  Forall (λ e, e.1 ≠ x.1) before ∧ Forall (λ e, e.1 ≠ x.1) after.
Proof.
  rewrite fmap_app, fmap_cons.
  intros (_ & Hbefore & [Hafter _]%NoDup_cons)%NoDup_app.
  split; apply Forall_forall; intros e He Heq.
  - apply (Hbefore e.1); [by apply list_elem_of_fmap_2|].
    rewrite Heq. by left.
  - apply Hafter. rewrite <- Heq. by apply list_elem_of_fmap_2.
Qed.

Lemma keys_apart_two (l1 l2 l3 : list (string * list HookMatcher))
    (x y : string * list HookMatcher) :
  NoDup (l1 ++ x :: l2 ++ y :: l3).*1 →
  Forall (λ e, e.1 ≠ x.1 ∧ e.1 ≠ y.1) l1
  ∧ Forall (λ e, e.1 ≠ x.1 ∧ e.1 ≠ y.1) l2
  ∧ Forall (λ e, e.1 ≠ x.1 ∧ e.1 ≠ y.1) l3.
Proof.
  intros Hnd.
  destruct (keys_apart _ _ _ Hnd) as [Hx1 Hx23].
  apply Forall_app in Hx23 as [Hx2 [_ Hx3]%Forall_cons].
  assert (Hnd' : NoDup ((l1 ++ x :: l2) ++ y :: l3).*1)
    by (by rewrite <- app_assoc).
  destruct (keys_apart _ _ _ Hnd') as [Hy12 Hy3].
  apply Forall_app in Hy12 as [Hy1 [_ Hy2]%Forall_cons].
  split_and!; apply Forall_and; done.
Qed.

Lemma loop_legacy_first (l1 l2 l3 : list (string * list HookMatcher))
    (A B : list HookMatcher) :
  "StatusStateChange" ∈ VALID_EVENTS →
  NoDup (l1 ++ ("TodoStateChange", A) :: l2 ++ ("StatusStateChange", B) :: l3).*1 →
  status_matchers
    (loop (l1 ++ ("TodoStateChange", A) :: l2 ++ ("StatusStateChange", B) :: l3))
  = A ++ B.
Proof.
  intros Hvalid (H1 & H2 & H3)%keys_apart_two.
  unfold Hooks.loop.
  rewrite foldl_app. cbn [foldl]. rewrite foldl_app. cbn [foldl].
  rewrite (foldl_other l3) by done. rewrite loop_body_current by done.
  rewrite (foldl_other l2) by done. rewrite loop_body_legacy.
  by rewrite (foldl_other l1) by done.
Qed.

Lemma loop_current_first (l1 l2 l3 : list (string * list HookMatcher))
    (A B : list HookMatcher) :
  "StatusStateChange" ∈ VALID_EVENTS →
  NoDup (l1 ++ ("StatusStateChange", B) :: l2 ++ ("TodoStateChange", A) :: l3).*1 →
  status_matchers
    (loop (l1 ++ ("StatusStateChange", B) :: l2 ++ ("TodoStateChange", A) :: l3))
  = B ++ A.
Proof.
  intros Hvalid (H1 & H2 & H3)%keys_apart_two.
  assert (Hswap : ∀ l, Forall (λ e : string * list HookMatcher,
                      e.1 ≠ "StatusStateChange" ∧ e.1 ≠ "TodoStateChange") l →
                    Forall (λ e, e.1 ≠ "TodoStateChange"
                                 ∧ e.1 ≠ "StatusStateChange") l).
  { intros l Hl. eapply Forall_impl; [exact Hl|]. intros e [? ?]. by split. }
  unfold Hooks.loop.
  rewrite foldl_app. cbn [foldl]. rewrite foldl_app. cbn [foldl].
  rewrite (foldl_other l3) by auto. rewrite loop_body_legacy.
  rewrite (foldl_other l2) by auto. rewrite loop_body_current by done.
  by rewrite (foldl_other l1) by auto.
Qed.

(** Two entries of a list stand in one of the two orders. *)
Lemma two_entries_split {E : Type} (l : list E) (x y : E) :
  x ≠ y → x ∈ l → y ∈ l →
  (∃ l1 l2 l3, l = l1 ++ x :: l2 ++ y :: l3)
  ∨ (∃ l1 l2 l3, l = l1 ++ y :: l2 ++ x :: l3).
Proof.
  intros Hne Hx Hy.
  apply list_elem_of_split in Hx as (l1 & l23 & ->).
  apply elem_of_app in Hy as [Hy | Hy].
  - apply list_elem_of_split in Hy as (l1a & l1b & ->).
    right. exists l1a, l1b, l23. by rewrite <- app_assoc.
  - apply elem_of_cons in Hy as [-> | Hy]; [done|].
    apply list_elem_of_split in Hy as (l2 & l3 & ->).
    left. by exists l1, l2, l3.
Qed.

(** C2: when the raw configuration holds the legacy key TodoStateChange
    with matchers [A] and the current key StatusStateChange with matchers
    [B], the list the transform returns for StatusStateChange has length
    |A| + |B|, holds exactly the matchers of [A] and of [B], and is [A ++ B]
    when the legacy key comes first in the raw input and [B ++ A] when the
    current key comes first.  StatusStateChange is taken to be a member of
    VALID_EVENTS, and the entries are those of a JavaScript object, so their
    keys are pairwise distinct. *)
Theorem legacy_and_current_are_merged (version : option Q)
    (entries : list (string * list HookMatcher)) (A B : list HookMatcher) :
  "StatusStateChange" ∈ VALID_EVENTS →
  NoDup entries.*1 →
  ("TodoStateChange", A) ∈ entries →
  ("StatusStateChange", B) ∈ entries →
  let merged :=
    getMatchersForEvent (transform version entries).1 "StatusStateChange" in
  length merged = length A + length B
  ∧ (∀ m, m ∈ merged ↔ m ∈ A ∨ m ∈ B)
  ∧ (∀ l1 l2 l3,
       entries = l1 ++ ("TodoStateChange", A) :: l2
                    ++ ("StatusStateChange", B) :: l3 →
       merged = A ++ B)
  ∧ (∀ l1 l2 l3,
       entries = l1 ++ ("StatusStateChange", B) :: l2
                    ++ ("TodoStateChange", A) :: l3 →
       merged = B ++ A).
Proof.
  intros Hvalid Hnd HA HB merged. subst merged.
  rewrite getMatchers_status.
  assert (Horder :
    (∀ l1 l2 l3,
       entries = l1 ++ ("TodoStateChange", A) :: l2
                    ++ ("StatusStateChange", B) :: l3 →
       status_matchers (loop entries) = A ++ B)
    ∧ (∀ l1 l2 l3,
       entries = l1 ++ ("StatusStateChange", B) :: l2
                    ++ ("TodoStateChange", A) :: l3 →
       status_matchers (loop entries) = B ++ A)).
  { split; intros l1 l2 l3 ->.
    - by apply loop_legacy_first.
    - by apply loop_current_first. }
  destruct Horder as [Hlegacy Hcurrent].
  assert (Heither : status_matchers (loop entries) = A ++ B
                    ∨ status_matchers (loop entries) = B ++ A).
  { destruct (two_entries_split entries ("TodoStateChange", A)
                ("StatusStateChange", B))
      as [(l1 & l2 & l3 & Heq) | (l1 & l2 & l3 & Heq)];
      [discriminate | done | done | left | right]; eauto. }
  split_and!; [ | | exact Hlegacy | exact Hcurrent].
  - destruct Heither as [-> | ->]; rewrite length_app; lia.
  - intros m. destruct Heither as [-> | ->]; rewrite elem_of_app; tauto.
Qed.

(** ** Unknown keys *)

Lemma deprecated_own (event : string) :
  DEPRECATED_EVENTS !! event = None ↔ event ≠ "TodoStateChange".
Proof.
  unfold DEPRECATED_EVENTS. split.
  - intros Hnone ->. by rewrite lookup_singleton_eq in Hnone.
  - intros Hne. by rewrite lookup_singleton_ne.
Qed.

(** One iteration on a key that names no inherited member. *)
Lemma loop_body_plain (st : LoopState) (event : string) (ms : list HookMatcher) :
  event ∉ OBJECT_PROTOTYPE_MEMBERS →
  loop_body st (event, ms) =
    if decide (event = "TodoStateChange") then
      {| validHooks := merge_into "StatusStateChange" ms (validHooks st);
         invalidEvents := invalidEvents st;
         warnings := warnings st
                     ++ [deprecated_warning event "StatusStateChange"] |}
    else if decide (event ∈ VALID_EVENTS) then
      {| validHooks := merge_into event ms (validHooks st);
         invalidEvents := invalidEvents st;
         warnings := warnings st |}
    else
      {| validHooks := validHooks st;
         invalidEvents := invalidEvents st ++ [event];
         warnings := warnings st |}.
Proof.
  intros Hplain. unfold Hooks.loop_body.
  destruct (decide (event = "TodoStateChange")) as [->|Hne].
  - by rewrite renamedTo_legacy.
  - by rewrite renamedTo_plain.
Qed.

(** What the loop reaches from any state, on keys that name no inherited
    member: the unknown keys are appended to [invalidEvents] in order, a
    warning is written for each legacy key, every key of [validHooks] was
    there before or is a valid event, and no list of [validHooks] loses a
    matcher. *)
Lemma loop_plain (entries : list (string * list HookMatcher)) (st : LoopState) :
  "StatusStateChange" ∈ VALID_EVENTS →
  Forall (λ e, e.1 ∉ OBJECT_PROTOTYPE_MEMBERS) entries →
  let st' := foldl loop_body st entries in
  invalidEvents st' = invalidEvents st ++ unknown_keys VALID_EVENTS entries
  ∧ warnings st'
    = warnings st
      ++ ((λ e, deprecated_warning e.1 "StatusStateChange")
          <$> filter (λ e, e.1 = "TodoStateChange") entries)
  ∧ (∀ key, is_Some (validHooks st' !! key) →
       is_Some (validHooks st !! key) ∨ key ∈ VALID_EVENTS)
  ∧ (∀ key m, m ∈ default [] (validHooks st !! key) →
       m ∈ default [] (validHooks st' !! key))
  ∧ (∀ event ms m, (event, ms) ∈ entries → m ∈ ms →
       (event = "TodoStateChange" →
          m ∈ default [] (validHooks st' !! "StatusStateChange"))
       ∧ (event ≠ "TodoStateChange" → event ∈ VALID_EVENTS →
          m ∈ default [] (validHooks st' !! event))).
Proof.
  intros Hvalid Hplain. revert st.
  induction Hplain as [|[event ms] rest Hev _ IH]; intros st.
  { cbn [foldl]. unfold unknown_keys. cbn.
    rewrite !app_nil_r. split_and!; [done | done | by left | done |].
    intros ? ? ? Hin. by apply elem_of_nil in Hin. }
  cbn [foldl]. cbn [fst] in Hev.
  destruct (IH (loop_body st (event, ms))) as (Hinv & Hwarn & Hkeys & Hmono & Hkept).
  cbv zeta. rewrite Hinv, Hwarn. clear Hinv Hwarn.
  rewrite (loop_body_plain st event ms Hev) in *.
  assert (Hmerge : ∀ key target m,
            m ∈ default [] (validHooks st !! key) →
            m ∈ default [] (merge_into target ms (validHooks st) !! key)).
  { intros key target m Hm.
    destruct (decide (target = key)) as [->|Hne].
    - rewrite merge_into_lookup. apply elem_of_app. by left.
    - by rewrite merge_into_lookup_ne. }
  assert (Hadded : ∀ target m,
            m ∈ ms →
            m ∈ default [] (merge_into target ms (validHooks st) !! target)).
  { intros target m Hm. rewrite merge_into_lookup. apply elem_of_app. by right. }
  assert (Hkeys' : ∀ key target,
            target ∈ VALID_EVENTS →
            is_Some (merge_into target ms (validHooks st) !! key) →
            is_Some (validHooks st !! key) ∨ key ∈ VALID_EVENTS).
  { intros key target Htarget Hsome.
    destruct (decide (target = key)) as [<-|Hne]; [by right|].
    left. by rewrite merge_into_lookup_ne in Hsome. }
  unfold unknown_keys. rewrite fmap_cons. cbn [fst].
  rewrite filter_cons.
  rewrite (filter_cons (λ e : string * list HookMatcher, e.1 = "TodoStateChange")).
  cbn [fst].
  destruct (decide (event = "TodoStateChange")) as [->|Hne].
  - rewrite decide_False by (intros [Hnone _]; by apply deprecated_own in Hnone).
    cbn [invalidEvents warnings validHooks] in *.
    rewrite fmap_cons, <- app_assoc. cbn [fst].
    split_and!; [done | done | | | ].
    + intros key Hsome. apply Hkeys in Hsome as [Hsome | ?]; [|by right].
      by apply (Hkeys' key "StatusStateChange").
    + intros key m Hm. apply Hmono. by apply Hmerge.
    + intros event' ms' m [[= -> ->] | Hin]%elem_of_cons Hm.
      * split; [|done]. intros _. apply Hmono. by apply Hadded.
      * by apply (Hkept event' ms').
  - destruct (decide (event ∈ VALID_EVENTS)) as [Hin | Hout].
    + rewrite decide_False by (intros [_ ?]; done).
      cbn [invalidEvents warnings validHooks] in *.
      split_and!; [done | done | | | ].
      * intros key Hsome. apply Hkeys in Hsome as [Hsome | ?]; [|by right].
        by apply (Hkeys' key event).
      * intros key m Hm. apply Hmono. by apply Hmerge.
      * intros event' ms' m [[= -> ->] | Hin']%elem_of_cons Hm.
        -- split; [done|]. intros _ _. apply Hmono. by apply Hadded.
        -- by apply (Hkept event' ms').
    + rewrite decide_True by (split; [by apply deprecated_own | done]).
      cbn [invalidEvents warnings validHooks] in *.
      rewrite <- app_assoc.
      split_and!; [done | done | done | done | ].
      intros event' ms' m [[= -> ->] | Hin']%elem_of_cons Hm.
      * split; done.
      * by apply (Hkept event' ms').
Qed.

(** For raw configurations none of whose keys names a member inherited from
    [Object.prototype]: every key that is neither in the deprecation table
    nor a valid event is absent from the output, every key of the output is
    a valid event, the warnings are one deprecation warning per legacy key
    followed, when there are unknown keys, by exactly one warning that lists
    them all in order, and no matcher under a valid or legacy key is lost. *)
Theorem unknown_keys_are_dropped (version : option Q)
    (entries : list (string * list HookMatcher)) :
  "StatusStateChange" ∈ VALID_EVENTS →
  Forall (λ e, e.1 ∉ OBJECT_PROTOTYPE_MEMBERS) entries →
  let config := (transform version entries).1 in
  let warned := (transform version entries).2 in
  let unknown := unknown_keys VALID_EVENTS entries in
  (∀ event, event ∈ unknown → valid_hooks config !! event = None)
  ∧ (∀ key, is_Some (valid_hooks config !! key) → key ∈ VALID_EVENTS)
  ∧ warned
    = ((λ e, deprecated_warning e.1 "StatusStateChange")
       <$> filter (λ e, e.1 = "TodoStateChange") entries)
      ++ match unknown with
         | [] => []
         | _ :: _ => [unknown_warning unknown]
         end
  ∧ (∀ event ms m, (event, ms) ∈ entries → m ∈ ms →
       (event = "TodoStateChange" →
          m ∈ getMatchersForEvent config "StatusStateChange")
       ∧ (event ≠ "TodoStateChange" → event ∈ VALID_EVENTS →
          m ∈ getMatchersForEvent config event)).
Proof.
  intros Hvalid Hplain.
  destruct (loop_plain entries
              {| validHooks := ∅; invalidEvents := []; warnings := [] |}
              Hvalid Hplain) as (Hinv & Hwarn & Hkeys & _ & Hkept).
  cbv zeta. unfold Hooks.transform, getMatchersForEvent.
  cbn [fst snd valid_hooks]. fold (loop entries) in *.
  cbn [invalidEvents warnings validHooks] in *.
  rewrite app_nil_l in Hinv, Hwarn.
  assert (Hout : ∀ key, is_Some (validHooks (loop entries) !! key) →
                        key ∈ VALID_EVENTS).
  { intros key Hsome. apply Hkeys in Hsome as [Hsome | ?]; [|done].
    rewrite lookup_empty in Hsome. by destruct Hsome. }
  split_and!.
  - intros event Hunknown.
    apply list_elem_of_filter in Hunknown as [[_ Hnot] _].
    apply eq_None_not_Some. intros Hsome. by apply Hnot, Hout.
  - exact Hout.
  - by rewrite Hinv, Hwarn.
  - exact Hkept.
Qed.

End Transform.

Lemma legacy_and_current_are_merged_witness :
  getMatchersForEvent (transform sample_events None both_names).1
                      "StatusStateChange"
  = [legacy_matcher; current_matcher].
Proof.
  destruct (legacy_and_current_are_merged sample_events None both_names
              [legacy_matcher] [current_matcher])
    as (_ & _ & Hfirst & _).
  - by left.
  - compute_done.
  - by left.
  - right. by left.
  - by apply (Hfirst [] [] []).
Defined.

Lemma unknown_keys_are_dropped_witness :
  valid_hooks (transform sample_events None legacy_and_unknown).1
    !! "NoSuchEvent" = None
  ∧ (transform sample_events None legacy_and_unknown).2
    = [ deprecated_warning "TodoStateChange" "StatusStateChange";
        unknown_warning ["NoSuchEvent"] ].
Proof.
  destruct (unknown_keys_are_dropped sample_events None legacy_and_unknown)
    as (Habsent & _ & Hwarned & _).
  - by left.
  - repeat constructor; compute_done.
  - split; [|exact Hwarned].
    apply Habsent. compute_done.
Defined.

(** ** Names inherited from Object.prototype *)

(** C7, at the input [{ hooks: { constructor: ms } }]: the key
    [constructor] is no own key of the deprecation table, yet
    [DEPRECATED_EVENTS["constructor"]] is the inherited function [Object],
    which is truthy.  The loop takes the deprecation branch: the matchers
    are kept in the output, under the key that function turns into, and
    the only warning written is a deprecation warning; the key is not put
    on the list of unknown events and no warning about unknown events is
    written. *)
Theorem inherited_name_is_not_reported (VALID_EVENTS : list string)
    (version : option Q) (ms : list HookMatcher) :
  DEPRECATED_EVENTS !! "constructor" = None
  ∧ transform VALID_EVENTS version [("constructor", ms)]
    = ({| Hooks.version := version;
          valid_hooks := {[ "function Object() { [native code] }" := ms ]} |},
       [ deprecated_warning "constructor"
                            "function Object() { [native code] }" ])
  ∧ invalidEvents (loop VALID_EVENTS [("constructor", ms)]) = [].
Proof.
  split; [reflexivity|].
  assert (Hren : renamedTo "constructor"
                 = Some "function Object() { [native code] }") by reflexivity.
  unfold transform, loop. cbn [foldl]. unfold loop_body.
  rewrite Hren. cbn [validHooks invalidEvents warnings].
  unfold merge_into. rewrite lookup_empty, insert_empty. done.
Qed.

(** ** Validation failures *)

Section Validation.

Variable positive_message : string.

Local Abbreviation check_definition := (check_definition positive_message).
Local Abbreviation check_matcher := (check_matcher positive_message).
Local Abbreviation check_record := (check_record positive_message).
Local Abbreviation check_config := (check_config positive_message).

(** The messages of the checks a matcher can fail. *)
Local Abbreviation shape_messages :=
  [ "At least one hook required"; "Command cannot be empty";
    positive_message; "Prompt cannot be empty" ].

(** The issues of element [i] are among those of the array. *)
Lemma check_array_elem {A : Type}
    (check : list PathSegment → A → list ZodIssue) (p : list PathSegment)
    (items : list A) (start i : nat) (x : A) (issue : ZodIssue) :
  items !! i = Some x →
  issue ∈ check (p ++ [Index (start + i)]) x →
  issue ∈ check_array check p start items.
Proof.
  revert start i.
  induction items as [|y rest IH]; intros start i Hlook Hin; [done|].
  cbn [check_array]. apply elem_of_app.
  destruct i as [|i]; simpl in Hlook.
  - injection Hlook as ->. left. by rewrite Nat.add_0_r in Hin.
  - right. apply (IH (S start) i); [done|].
    by replace (S start + i) with (start + S i) by lia.
Qed.

Lemma check_record_entry (p : list PathSegment)
    (entries : list (string * list HookMatcher)) (event : string)
    (ms : list HookMatcher) (issue : ZodIssue) :
  event ≠ "__proto__" →
  (event, ms) ∈ entries →
  issue ∈ check_array check_matcher (p ++ [Key event]) 0 ms →
  issue ∈ check_record p entries.
Proof.
  intros Hkey Hentry Hin.
  induction entries as [|[event' ms'] rest IH]; [by apply elem_of_nil in Hentry|].
  cbn [Hooks.check_record]. apply elem_of_app.
  apply elem_of_cons in Hentry as [[= <- <-] | Hrest].
  - left. by rewrite decide_False.
  - right. by apply IH.
Qed.

(** A matcher that violates the shape has an issue, located under its
    [hooks] field. *)
Lemma violation_has_issue (p : list PathSegment) (m : HookMatcher) :
  violates_shape m →
  ∃ issue, issue ∈ check_matcher p m
           ∧ (p ++ [Key "hooks"]) `prefix_of` issue_path issue
           ∧ issue_message issue ∈ shape_messages.
Proof.
  intros Hbad. unfold Hooks.check_matcher.
  destruct Hbad as [Hnone | j t Hj | j c t Hj Ht | j Hj].
  - rewrite Hnone. eexists. split; [by left|]. split; [done|]. by left.
  - eexists. split.
    + apply elem_of_app. right.
      eapply (check_array_elem _ _ _ 0 j); [exact Hj|].
      cbn [Hooks.check_definition]. rewrite decide_True by done.
      apply elem_of_app. left. by left.
    + cbn [issue_path issue_message]. split; [by do 2 apply prefix_app_r|].
      set_solver.
  - eexists. split.
    + apply elem_of_app. right.
      eapply (check_array_elem _ _ _ 0 j); [exact Hj|].
      cbn [Hooks.check_definition]. apply elem_of_app. right.
      destruct (Qlt_le_dec 0 t) as [Hpos|_]; [|by left].
      exfalso. by apply (Qlt_not_le _ _ Hpos).
    + cbn [issue_path issue_message]. split; [by do 2 apply prefix_app_r|].
      set_solver.
  - eexists. split.
    + apply elem_of_app. right.
      eapply (check_array_elem _ _ _ 0 j); [exact Hj|].
      cbn [Hooks.check_definition]. rewrite decide_True by done. by left.
    + cbn [issue_path issue_message]. split; [by do 2 apply prefix_app_r|].
      set_solver.
Qed.

(** The dotted path of an issue located under [hooks.<event>.<i>.hooks]. *)
Lemma dotted_path_under (event : string) (i : nat) (rest : list PathSegment) :
  ∃ suffix,
    dotted_path ([Key "hooks"; Key event; Index i] ++ [Key "hooks"] ++ rest)
    = "hooks." +:+ event +:+ "." +:+ pretty i +:+ ".hooks" +:+ suffix.
Proof.
  exists (match rest with
          | [] => ""
          | _ :: _ => "." +:+ Js.join "." (segment_to_string <$> rest)
          end).
  unfold dotted_path, Js.or_else, Js.truthy.
  destruct rest as [|seg rest]; reflexivity.
Qed.

(** C8, as amended: when some matcher of the raw configuration, under an
    event key other than [__proto__], violates the shape (a command or
    prompt definition with an empty string, a timeout that is not strictly
    positive, or a [hooks] list without a definition), parsing the whole
    file fails: [safeParse] returns issues and no configuration, and
    [zodErrorToIssues] turns them into validation issues that all carry the
    file and the severity "error", one of which has a dotted path under
    [hooks.<event>.<index>.hooks] and the message of the failed check. *)
Theorem invalid_matcher_fails_the_file (VALID_EVENTS : list string)
    (file : string) (raw : RawConfig) (event : string)
    (ms : list HookMatcher) (i : nat) (m : HookMatcher) :
  event ≠ "__proto__" →
  (event, ms) ∈ default [] (raw_hooks raw) →
  ms !! i = Some m →
  violates_shape m →
  ∃ issues,
    safeParse VALID_EVENTS positive_message raw = Failure issues
    ∧ (∀ v, v ∈ zodErrorToIssues issues file →
         Hooks.file v = file ∧ severity v = "error")
    ∧ ∃ v suffix,
        v ∈ zodErrorToIssues issues file
        ∧ path v = "hooks." +:+ event +:+ "." +:+ pretty i +:+ ".hooks"
                   +:+ suffix
        ∧ message v ∈ shape_messages.
Proof.
  intros Hkey Hentry Hi Hbad.
  destruct (violation_has_issue [Key "hooks"; Key event; Index i] m Hbad)
    as (issue & Hin & [rest Hpath] & Hmsg).
  assert (Hcfg : issue ∈ check_config raw).
  { unfold Hooks.check_config.
    apply (check_record_entry _ _ event ms); [done | done |].
    by apply (check_array_elem _ _ _ 0 i m). }
  exists (check_config raw). split_and!.
  - unfold safeParse.
    destruct (Hooks.check_config positive_message raw) as [|first more] eqn:Hc;
      [by apply elem_of_nil in Hcfg | done].
  - intros v (z & -> & _)%list_elem_of_fmap. done.
  - destruct (dotted_path_under event i rest) as [suffix Hdot].
    exists {| Hooks.file := file; path := dotted_path (issue_path issue);
              message := issue_message issue; severity := "error" |}, suffix.
    split_and!.
    + unfold zodErrorToIssues. apply list_elem_of_fmap. by exists issue.
    + cbn [path]. by rewrite Hpath, <- Hdot.
    + done.
Qed.

End Validation.

Lemma invalid_matcher_fails_the_file_witness :
  ∃ issues,
    safeParse sample_events "Number must be greater than 0" zero_timeout_config
    = Failure issues
    ∧ ∃ v suffix,
        v ∈ zodErrorToIssues issues "hooks.json"
        ∧ path v = "hooks.StatusStateChange.0.hooks" +:+ suffix.
Proof.
  destruct (invalid_matcher_fails_the_file "Number must be greater than 0"
              sample_events "hooks.json" zero_timeout_config
              "StatusStateChange" [zero_timeout_matcher] 0 zero_timeout_matcher)
    as (issues & Hfail & _ & v & suffix & Hv & Hpath & _).
  - discriminate.
  - by left.
  - reflexivity.
  - apply (timeout_not_positive _ 0 "echo done" 0%Q); [reflexivity|].
    apply Qle_refl.
  - exists issues. split; [exact Hfail|]. by exists v, suffix.
Defined.

(** C8, as the claim states it, fails at a configuration whose only key is
    [__proto__]: the matcher under it has an empty [hooks] list, which
    violates the shape, yet the parse succeeds, with an empty
    configuration and no warning, because the record parser skips that
    key. *)
Lemma proto_key_is_not_validated :
  ("__proto__", [empty_matcher]) ∈ default [] (raw_hooks proto_key_config)
  ∧ violates_shape empty_matcher
  ∧ safeParse sample_events "Number must be greater than 0" proto_key_config
    = Success {| version := None; valid_hooks := ∅ |} [].
Proof.
  split_and!; [by left | by constructor | reflexivity].
Qed.

End HooksSpec.

(* ===================================================================== *)
(** * The hook configuration schema: what validation reports *)
(* ===================================================================== *)

Module HooksValidation.

Import Hooks.

(** An issue of an array is an issue of one of its elements. *)
Lemma check_array_inv {A : Type}
    (check : list PathSegment → A → list ZodIssue) (p : list PathSegment)
    (items : list A) (start : nat) (issue : ZodIssue) :
  issue ∈ check_array check p start items →
  ∃ i x, items !! i = Some x ∧ issue ∈ check (p ++ [Index (start + i)]) x.
Proof.
  revert start. induction items as [|y rest IH]; intros start Hin;
    [by apply elem_of_nil in Hin|].
  cbn [check_array] in Hin. apply elem_of_app in Hin as [Hin | Hin].
  - exists 0, y. by rewrite Nat.add_0_r.
  - apply IH in Hin as (i & x & Hi & Hin). exists (S i), x.
    split; [done|]. by replace (start + S i) with (S start + i) by lia.
Qed.

Section Validation.

Variable positive_message : string.

Local Abbreviation check_definition := (check_definition positive_message).
Local Abbreviation check_matcher := (check_matcher positive_message).
Local Abbreviation check_record := (check_record positive_message).
Local Abbreviation check_config := (check_config positive_message).

Lemma check_record_inv (p : list PathSegment)
    (entries : list (string * list HookMatcher)) (issue : ZodIssue) :
  issue ∈ check_record p entries →
  ∃ event ms, event ≠ "__proto__"
              ∧ (event, ms) ∈ entries
              ∧ issue ∈ check_array check_matcher (p ++ [Key event]) 0 ms.
Proof.
  induction entries as [|[event ms] rest IH]; intros Hin;
    [by apply elem_of_nil in Hin|].
  cbn [Hooks.check_record] in Hin. apply elem_of_app in Hin as [Hin | Hin].
  - destruct (decide (event = "__proto__")); [by apply elem_of_nil in Hin|].
    exists event, ms. split_and!; [done | by left | done].
  - apply IH in Hin as (event' & ms' & Hkey & Hentry & Hin).
    exists event', ms'. split_and!; [done | by right | done].
Qed.

(** An issue of a matcher comes from a violation of the shape and lies
    under the matcher's [hooks] field. *)
Lemma check_matcher_inv (p : list PathSegment) (m : HookMatcher)
    (issue : ZodIssue) :
  issue ∈ check_matcher p m →
  violates_shape m
  ∧ ∃ rest, issue_path issue = p ++ [Key "hooks"] ++ rest.
Proof.
  unfold Hooks.check_matcher. intros [Hin | Hin]%elem_of_app.
  - destruct (hooks m) eqn:Hhooks; [|by apply elem_of_nil in Hin].
    apply list_elem_of_singleton in Hin as ->. split; [by constructor|].
    exists []. cbn [issue_path]. by rewrite app_nil_r.
  - apply check_array_inv in Hin as (j & d & Hj & Hin).
    destruct d as [command timeout | prompt]; cbn [Hooks.check_definition] in Hin.
    + apply elem_of_app in Hin as [Hin | Hin].
      * destruct (decide (command = "")) as [->|]; [|by apply elem_of_nil in Hin].
        apply list_elem_of_singleton in Hin as ->.
        split; [by apply (empty_command m j timeout)|].
        exists [Index (0 + j); Key "command"]. cbn [issue_path].
        by rewrite <- !app_assoc.
      * destruct timeout as [t|]; [|by apply elem_of_nil in Hin].
        destruct (Qlt_le_dec 0 t) as [|Hle]; [by apply elem_of_nil in Hin|].
        apply list_elem_of_singleton in Hin as ->.
        split; [by apply (timeout_not_positive m j command t)|].
        exists [Index (0 + j); Key "timeout"]. cbn [issue_path].
        by rewrite <- !app_assoc.
    + destruct (decide (prompt = "")) as [->|]; [|by apply elem_of_nil in Hin].
      apply list_elem_of_singleton in Hin as ->.
      split; [by apply (empty_prompt m j)|].
      exists [Index (0 + j); Key "prompt"]. cbn [issue_path].
      by rewrite <- !app_assoc.
Qed.

(** Every issue of a configuration is located at a matcher of the raw input
    that violates the shape, under a key other than [__proto__]. *)
Lemma check_config_inv (raw : RawConfig) (issue : ZodIssue) :
  issue ∈ check_config raw →
  ∃ event ms i m rest,
    event ≠ "__proto__"
    ∧ (event, ms) ∈ default [] (raw_hooks raw)
    ∧ ms !! i = Some m
    ∧ violates_shape m
    ∧ issue_path issue
      = [Key "hooks"; Key event; Index i] ++ [Key "hooks"] ++ rest.
Proof.
  unfold Hooks.check_config.
  intros (event & ms & Hkey & Hentry & Hin)%check_record_inv.
  apply check_array_inv in Hin as (i & m & Hi & Hin).
  apply check_matcher_inv in Hin as (Hbad & rest & Hpath).
  exists event, ms, i, m, rest. split_and!; [done | done | done | done |].
  rewrite Hpath. by rewrite <- !app_assoc.
Qed.

(** Of the raw configurations whose values have the types the schemas
    declare, [safeParse] accepts exactly those without a matcher that
    violates the shape (a command or prompt that is empty, a timeout that is
    not positive, or an empty [hooks] list) under a key other than
    [__proto__], the key the record parser skips. *)
Theorem accepted_iff_well_shaped (VALID_EVENTS : list string) (raw : RawConfig) :
  (∃ config warned,
     safeParse VALID_EVENTS positive_message raw = Success config warned)
  ↔ (∀ event ms i m,
       event ≠ "__proto__" →
       (event, ms) ∈ default [] (raw_hooks raw) → ms !! i = Some m →
       ¬ violates_shape m).
Proof.
  split.
  - intros (config & warned & Hok) event ms i m Hkey Hentry Hi Hbad.
    destruct (HooksSpec.violation_has_issue positive_message
                [Key "hooks"; Key event; Index i] m Hbad) as (issue & Hin & _).
    assert (Hcfg : issue ∈ check_config raw).
    { unfold Hooks.check_config.
      apply (HooksSpec.check_record_entry _ _ _ event ms); [done | done |].
      by apply (HooksSpec.check_array_elem _ _ _ 0 i m). }
    unfold safeParse in Hok.
    destruct (Hooks.check_config positive_message raw); [|done].
    by apply elem_of_nil in Hcfg.
  - intros Hgood. unfold safeParse.
    destruct (Hooks.check_config positive_message raw) as [|issue more] eqn:Hc.
    + destruct (transform VALID_EVENTS (raw_version raw)
                  (record_output (default [] (raw_hooks raw))))
        as [config warned].
      by exists config, warned.
    + assert (Hin : issue ∈ check_config raw) by (rewrite Hc; by left).
      apply check_config_inv in Hin
        as (event & ms & i & m & _ & Hkey & He & Hi & Hbad & _).
      by destruct (Hgood event ms i m).
Qed.

(** For a raw configuration whose values have the types the schemas
    declare: when [safeParse] fails, every validation issue made of its
    error carries the file and the severity "error", and its dotted path
    leads into the [hooks] field of a matcher of the raw input that violates
    the shape and stands under a key other than [__proto__]. *)
Theorem every_issue_points_at_a_violation (VALID_EVENTS : list string)
    (file : string) (raw : RawConfig) (issues : list ZodIssue)
    (v : ValidationIssue) :
  safeParse VALID_EVENTS positive_message raw = Failure issues →
  v ∈ zodErrorToIssues issues file →
  Hooks.file v = file
  ∧ severity v = "error"
  ∧ ∃ event ms i m suffix,
      event ≠ "__proto__"
      ∧ (event, ms) ∈ default [] (raw_hooks raw)
      ∧ ms !! i = Some m
      ∧ violates_shape m
      ∧ path v = "hooks." +:+ event +:+ "." +:+ pretty i +:+ ".hooks"
                 +:+ suffix.
Proof.
  intros Hfail (z & -> & Hz)%list_elem_of_fmap. cbn [Hooks.file severity path].
  split_and!; [done | done |].
  assert (Hin : z ∈ check_config raw).
  { unfold safeParse in Hfail.
    destruct (Hooks.check_config positive_message raw) as [|issue more];
      [|by injection Hfail as <-].
    by destruct (transform _ _ _). }
  apply check_config_inv in Hin
    as (event & ms & i & m & rest & Hkey & He & Hi & Hbad & Hp).
  destruct (HooksSpec.dotted_path_under event i rest) as [suffix Hdot].
  exists event, ms, i, m, suffix. by rewrite Hp.
Qed.

End Validation.

Lemma every_issue_points_at_a_violation_witness :
  ∃ v, v ∈ zodErrorToIssues
             (check_config "Number must be greater than 0" zero_timeout_config)
             "hooks.json"
       ∧ Hooks.file v = "hooks.json" ∧ severity v = "error".
Proof.
  exists {| Hooks.file := "hooks.json";
            path := "hooks.StatusStateChange.0.hooks.0.timeout";
            message := "Number must be greater than 0";
            severity := "error" |}.
  assert (Hin : {| Hooks.file := "hooks.json";
                   path := "hooks.StatusStateChange.0.hooks.0.timeout";
                   message := "Number must be greater than 0";
                   severity := "error" |}
                ∈ zodErrorToIssues
                    (check_config "Number must be greater than 0"
                                  zero_timeout_config) "hooks.json")
    by (by left).
  split; [exact Hin|].
  destruct (every_issue_points_at_a_violation "Number must be greater than 0"
              sample_events "hooks.json" zero_timeout_config _ _
              eq_refl Hin) as (Hfile & Hsev & _).
  by split.
Defined.

(** ** zodErrorToIssues on any error *)

(** [zodErrorToIssues] turns the zod issues into validation issues one for
    one and in order, keeps each message, and never reports an empty path:
    an issue at the root of the document, whose path has no segment, is
    reported under the path "root". *)
Theorem issues_convert_one_for_one (issues : list ZodIssue) (file : string) :
  length (zodErrorToIssues issues file) = length issues
  ∧ (∀ i z, issues !! i = Some z →
       ∃ v, zodErrorToIssues issues file !! i = Some v
            ∧ message v = issue_message z
            ∧ Hooks.file v = file
            ∧ severity v = "error"
            ∧ path v ≠ ""
            ∧ (issue_path z = [] → path v = "root")).
Proof.
  split; [apply length_fmap|].
  intros i z Hi. eexists. split.
  - unfold zodErrorToIssues. rewrite list_lookup_fmap, Hi. reflexivity.
  - cbn [message Hooks.file severity path]. split_and!; [done | done | done | | ].
    + unfold dotted_path, Js.or_else, Js.truthy.
      by destruct (decide (Js.join "." (segment_to_string <$> issue_path z) = "")).
    + by intros ->.
Qed.

End HooksValidation.

(* ===================================================================== *)
(** * The transform on any raw configuration *)
(* ===================================================================== *)

Module HooksTransform.

Import Hooks.

Lemma renamedTo_inherited (event : string) :
  event ∈ OBJECT_PROTOTYPE_MEMBERS →
  renamedTo event = Some (inherited_to_string event).
Proof.
  intros Hin. unfold renamedTo, read_property, DEPRECATED_EVENTS.
  assert (event ≠ "TodoStateChange") by (intros ->; revert Hin; compute_done).
  rewrite lookup_singleton_ne by done. by rewrite decide_True.
Qed.

(** An event is renamed only from the legacy name, or from the name of an
    inherited member. *)
Lemma renamedTo_Some_inv (event renamed : string) :
  renamedTo event = Some renamed →
  (event = "TodoStateChange" ∧ renamed = "StatusStateChange")
  ∨ (event ∈ OBJECT_PROTOTYPE_MEMBERS ∧ renamed = inherited_to_string event).
Proof.
  unfold renamedTo, read_property, DEPRECATED_EVENTS.
  destruct (decide (event = "TodoStateChange")) as [->|Hne].
  - intros [= <-]. by left.
  - rewrite lookup_singleton_ne by done.
    destruct (decide (event ∈ OBJECT_PROTOTYPE_MEMBERS)); [|done].
    intros [= <-]. by right.
Qed.

Section Transform.

Variable VALID_EVENTS : list string.

Local Abbreviation loop_body := (loop_body VALID_EVENTS).
Local Abbreviation loop := (loop VALID_EVENTS).
Local Abbreviation transform := (transform VALID_EVENTS).

(** ** Nothing accumulated is lost *)

Lemma merge_into_keeps (key target : string) (ms : list HookMatcher)
    (vh : gmap string (list HookMatcher)) (m : HookMatcher) :
  m ∈ default [] (vh !! key) →
  m ∈ default [] (merge_into target ms vh !! key).
Proof.
  intros Hm. destruct (decide (target = key)) as [->|Hne].
  - rewrite HooksSpec.merge_into_lookup. apply elem_of_app. by left.
  - by rewrite HooksSpec.merge_into_lookup_ne.
Qed.

Lemma loop_body_keeps (st : LoopState) (entry : string * list HookMatcher) :
  (∀ key m, m ∈ default [] (validHooks st !! key) →
            m ∈ default [] (validHooks (loop_body st entry) !! key))
  ∧ (∀ w, w ∈ warnings st → w ∈ warnings (loop_body st entry)).
Proof.
  destruct entry as [event ms]. unfold Hooks.loop_body.
  destruct (renamedTo event) as [renamed|];
    [|destruct (decide (event ∈ VALID_EVENTS))]; cbn [validHooks warnings];
    (split; [intros key m Hm | intros w Hw]);
    try done; try (by apply merge_into_keeps).
  apply elem_of_app. by left.
Qed.

Lemma foldl_keeps (entries : list (string * list HookMatcher)) (st : LoopState) :
  (∀ key m, m ∈ default [] (validHooks st !! key) →
            m ∈ default [] (validHooks (foldl loop_body st entries) !! key))
  ∧ (∀ w, w ∈ warnings st → w ∈ warnings (foldl loop_body st entries)).
Proof.
  revert st. induction entries as [|entry rest IH]; intros st; [done|].
  cbn [foldl]. destruct (IH (loop_body st entry)) as [IHm IHw].
  destruct (loop_body_keeps st entry) as [Hm Hw].
  split; [intros key m ? | intros w ?]; auto.
Qed.

(** An entry whose key is renamed: its matchers are stored under the new
    name and the deprecation warning is written, whatever else the
    configuration holds. *)
Lemma renamed_entry_is_kept (entries : list (string * list HookMatcher))
    (st : LoopState) (event renamed : string) (ms : list HookMatcher) :
  (event, ms) ∈ entries →
  renamedTo event = Some renamed →
  let st' := foldl loop_body st entries in
  deprecated_warning event renamed ∈ warnings st'
  ∧ ∀ m, m ∈ ms → m ∈ default [] (validHooks st' !! renamed).
Proof.
  intros Hin Hren. revert st.
  induction entries as [|entry rest IH]; intros st;
    [by apply elem_of_nil in Hin|].
  cbn [foldl]. apply elem_of_cons in Hin as [<- | Hin]; [|by apply IH].
  destruct (foldl_keeps rest (loop_body st (event, ms))) as [Hm Hw].
  assert (Hstep : loop_body st (event, ms)
                  = {| validHooks := merge_into renamed ms (validHooks st);
                       invalidEvents := invalidEvents st;
                       warnings := warnings st
                                   ++ [deprecated_warning event renamed] |}).
  { unfold Hooks.loop_body. by rewrite Hren. }
  cbv zeta. split.
  - apply Hw. rewrite Hstep. cbn [warnings]. apply elem_of_app. right. by left.
  - intros m Hmem. apply Hm. rewrite Hstep.
    cbn [validHooks]. rewrite HooksSpec.merge_into_lookup.
    apply elem_of_app. by right.
Qed.

(** Whatever the raw configuration holds beside it, a legacy key
    TodoStateChange makes the transform write the deprecation warning that
    names both TodoStateChange and StatusStateChange, and every matcher
    declared under it is in the output list of StatusStateChange. *)
Theorem legacy_key_always_warns (version : option Q)
    (entries : list (string * list HookMatcher)) (A : list HookMatcher) :
  ("TodoStateChange", A) ∈ entries →
  deprecated_warning "TodoStateChange" "StatusStateChange"
    ∈ (transform version entries).2
  ∧ ∀ m, m ∈ A →
      m ∈ getMatchersForEvent (transform version entries).1 "StatusStateChange".
Proof.
  intros Hin.
  destruct (renamed_entry_is_kept entries
              {| validHooks := ∅; invalidEvents := []; warnings := [] |}
              "TodoStateChange" "StatusStateChange" A Hin eq_refl) as [Hw Hm].
  split; [|exact Hm].
  unfold Hooks.transform. cbn [snd]. apply elem_of_app. by left.
Qed.

(** ** Keys that name inherited members *)

Lemma invalidEvents_inv (entries : list (string * list HookMatcher))
    (st : LoopState) (event : string) :
  event ∈ invalidEvents (foldl loop_body st entries) →
  event ∈ invalidEvents st ∨ renamedTo event = None.
Proof.
  revert st. induction entries as [|[event' ms] rest IH]; intros st Hin;
    [by left|].
  cbn [foldl] in Hin. apply IH in Hin as [Hin | ?]; [|by right].
  unfold Hooks.loop_body in Hin.
  destruct (renamedTo event') as [renamed|] eqn:Hren; [by left|].
  destruct (decide (event' ∈ VALID_EVENTS)); [by left|].
  cbn [invalidEvents] in Hin.
  apply elem_of_app in Hin as [? | ->%list_elem_of_singleton];
    [by left | by right].
Qed.

(** A key that names a function every object inherits ([constructor],
    [toString], [valueOf], ...; not [__proto__], which never reaches the
    transform because the record parser leaves it out) is treated as a
    deprecated name in any configuration: it is never put on the list of
    unknown events, a deprecation warning is written for it, and its
    matchers are in the output under the text the inherited function turns
    into. *)
Theorem inherited_key_is_renamed (version : option Q)
    (entries : list (string * list HookMatcher)) (event : string)
    (ms : list HookMatcher) :
  event ∈ OBJECT_PROTOTYPE_MEMBERS →
  event ≠ "__proto__" →
  (event, ms) ∈ entries →
  (event ∉ invalidEvents (loop entries))
  ∧ deprecated_warning event (inherited_to_string event)
      ∈ (transform version entries).2
  ∧ ∀ m, m ∈ ms →
      m ∈ getMatchersForEvent (transform version entries).1
                              (inherited_to_string event).
Proof.
  intros Hmember Hproto Hin.
  pose proof (renamedTo_inherited event Hmember) as Hren.
  destruct (renamed_entry_is_kept entries
              {| validHooks := ∅; invalidEvents := []; warnings := [] |}
              event (inherited_to_string event) ms Hin Hren) as [Hw Hm].
  split_and!.
  - intros Hinv. apply invalidEvents_inv in Hinv as [Hinv | Hnone].
    + by apply elem_of_nil in Hinv.
    + rewrite Hren in Hnone. discriminate.
  - unfold Hooks.transform. cbn [snd]. apply elem_of_app. by left.
  - exact Hm.
Qed.

(** ** Where the keys of the output come from *)

Lemma validHooks_inv (entries : list (string * list HookMatcher))
    (st : LoopState) (key : string) :
  is_Some (validHooks (foldl loop_body st entries) !! key) →
  is_Some (validHooks st !! key)
  ∨ ∃ event, event ∈ entries.*1
             ∧ (renamedTo event = Some key
                ∨ (renamedTo event = None ∧ event ∈ VALID_EVENTS ∧ key = event)).
Proof.
  revert st. induction entries as [|[event ms] rest IH]; intros st Hsome;
    [by left|].
  cbn [foldl] in Hsome. rewrite fmap_cons. cbn [fst].
  apply IH in Hsome as [Hsome | (event' & Hin & Hfrom)].
  - unfold Hooks.loop_body in Hsome.
    destruct (renamedTo event) as [renamed|] eqn:Hren;
      [|destruct (decide (event ∈ VALID_EVENTS)) as [Hvalid|]];
      cbn [validHooks] in Hsome; [ | | by left].
    + destruct (decide (renamed = key)) as [<-|Hne].
      * right. exists event. split; [by left | by left].
      * left. by rewrite HooksSpec.merge_into_lookup_ne in Hsome.
    + destruct (decide (event = key)) as [<-|Hne].
      * right. exists event. split; [by left | by right].
      * left. by rewrite HooksSpec.merge_into_lookup_ne in Hsome.
  - right. exists event'. split; [by right | done].
Qed.

(** Every key of the transform's output is a valid event that is a key of
    the raw input, or StatusStateChange standing for a legacy key of the
    raw input, or the text an inherited member turns into, for a key of the
    raw input that names such a member. *)
Theorem output_keys_origin (version : option Q)
    (entries : list (string * list HookMatcher)) (key : string) :
  is_Some (valid_hooks (transform version entries).1 !! key) →
  (key ∈ VALID_EVENTS ∧ key ∈ entries.*1)
  ∨ (key = "StatusStateChange" ∧ "TodoStateChange" ∈ entries.*1)
  ∨ (∃ name, name ∈ OBJECT_PROTOTYPE_MEMBERS ∧ name ∈ entries.*1
             ∧ key = inherited_to_string name).
Proof.
  intros Hsome. unfold Hooks.transform in Hsome. cbn [fst valid_hooks] in Hsome.
  apply validHooks_inv in Hsome as [Hsome | (event & Hin & Hfrom)].
  { cbn [validHooks] in Hsome. rewrite lookup_empty in Hsome. by destruct Hsome. }
  destruct Hfrom as [Hren | (_ & Hvalid & ->)]; [|by left].
  apply renamedTo_Some_inv in Hren as [[-> ->] | [Hmember ->]].
  - right. by left.
  - right. right. by exists event.
Qed.

(** ** Configurations that need no change *)

Lemma foldl_valid (entries : list (string * list HookMatcher)) (st : LoopState) :
  NoDup entries.*1 →
  Forall (λ e, e.1 ∈ VALID_EVENTS ∧ renamedTo e.1 = None) entries →
  let st' := foldl loop_body st entries in
  invalidEvents st' = invalidEvents st
  ∧ warnings st' = warnings st
  ∧ ∀ key, validHooks st' !! key
           = match (list_to_map entries : gmap string (list HookMatcher)) !! key with
             | Some ms => Some (default [] (validHooks st !! key) ++ ms)
             | None => validHooks st !! key
             end.
Proof.
  intros Hnd Hall. revert st Hnd.
  induction Hall as [|[event ms] rest [Hvalid Hren] _ IH]; intros st Hnd.
  { cbv zeta. cbn [foldl]. split_and!; [done | done |].
    intros key. by rewrite list_to_map_nil, lookup_empty. }
  rewrite fmap_cons in Hnd. apply NoDup_cons in Hnd as [Hfresh Hnd].
  cbn [fst] in Hvalid, Hren, Hfresh.
  cbn [foldl]. destruct (IH (loop_body st (event, ms)) Hnd) as (Hi & Hw & Hl).
  assert (Hstep : loop_body st (event, ms)
                  = {| validHooks := merge_into event ms (validHooks st);
                       invalidEvents := invalidEvents st;
                       warnings := warnings st |}).
  { unfold Hooks.loop_body. rewrite Hren. by rewrite decide_True. }
  cbv zeta in Hi, Hw, Hl |- *. rewrite Hstep in Hi, Hw, Hl |- *.
  cbn [invalidEvents warnings validHooks] in Hi, Hw, Hl.
  split_and!; [done | done |].
  intros key. rewrite Hl, list_to_map_cons. cbn [fst snd].
  destruct (decide (event = key)) as [<-|Hne].
  - rewrite lookup_insert_eq.
    rewrite (not_elem_of_list_to_map_1 rest event) by done.
    apply HooksSpec.merge_into_lookup.
  - rewrite lookup_insert_ne by done.
    by rewrite HooksSpec.merge_into_lookup_ne.
Qed.

(** A raw configuration all of whose keys are valid events (none of them
    the legacy name or the name of an inherited member) passes the transform
    unchanged and without a warning: the output maps every key to its own
    list of matchers and holds no other key. *)
Theorem valid_configuration_is_kept (version : option Q)
    (entries : list (string * list HookMatcher)) :
  NoDup entries.*1 →
  Forall (λ e, e.1 ∈ VALID_EVENTS ∧ e.1 ≠ "TodoStateChange"
               ∧ e.1 ∉ OBJECT_PROTOTYPE_MEMBERS) entries →
  transform version entries
  = ({| Hooks.version := version; valid_hooks := list_to_map entries |}, []).
Proof.
  intros Hnd Hall.
  assert (Hall' : Forall (λ e : string * list HookMatcher,
                     e.1 ∈ VALID_EVENTS ∧ renamedTo e.1 = None) entries).
  { eapply Forall_impl; [exact Hall|]. intros e (? & ? & ?).
    split; [done|]. by apply HooksSpec.renamedTo_plain. }
  destruct (foldl_valid entries
              {| validHooks := ∅; invalidEvents := []; warnings := [] |}
              Hnd Hall') as (Hi & Hw & Hl).
  unfold Hooks.transform. fold (loop entries) in *.
  cbn [invalidEvents warnings validHooks] in *. rewrite Hi, Hw.
  f_equal. f_equal. apply map_eq. intros key. rewrite Hl, lookup_empty.
  by destruct (list_to_map entries !! key).
Qed.

End Transform.

Lemma legacy_key_always_warns_witness :
  deprecated_warning "TodoStateChange" "StatusStateChange"
    ∈ (transform sample_events None legacy_and_unknown).2.
Proof.
  destruct (legacy_key_always_warns sample_events None legacy_and_unknown
              [legacy_matcher]) as [Hw _]; [by left | exact Hw].
Defined.

Lemma inherited_key_is_renamed_witness :
  legacy_matcher
    ∈ getMatchersForEvent (transform sample_events None inherited_key).1
                          "function toString() { [native code] }".
Proof.
  destruct (inherited_key_is_renamed sample_events None inherited_key
              "toString" [legacy_matcher]) as (_ & _ & Hm).
  - compute_done.
  - discriminate.
  - right. by left.
  - apply Hm. by left.
Defined.

Lemma output_keys_origin_witness :
  "StatusStateChange" ∈ sample_events ∧ "StatusStateChange" ∈ inherited_key.*1.
Proof.
  destruct (output_keys_origin sample_events None inherited_key
              "StatusStateChange") as [Hvalid | [[_ Hlegacy] | (name & _ & _ & Hkey)]].
  - by eexists.
  - exact Hvalid.
  - exfalso. revert Hlegacy. compute_done.
  - exfalso. revert Hkey. unfold inherited_to_string.
    destruct (decide (name = "__proto__")); [discriminate|].
    simpl. discriminate.
Defined.

Lemma valid_configuration_is_kept_witness :
  transform sample_events None two_valid_names
  = ({| Hooks.version := None; valid_hooks := list_to_map two_valid_names |}, []).
Proof.
  apply (valid_configuration_is_kept sample_events None two_valid_names).
  - compute_done.
  - repeat constructor; compute_done.
Defined.

End HooksTransform.

(* ===================================================================== *)
(** * Properties of the title generator *)
(* ===================================================================== *)

Module TitleGeneratorSpec.

Import TitleGenerator.

(** [validate_length] accepts exactly the non-empty strings shorter than
    100 code units. *)
Lemma validate_length_accepts (s : JsString) :
  s ≠ [] → length s < 100 → validate_length s = Some s.
Proof.
  intros Hne Hlen. unfold validate_length.
  assert (0 < length s) by (destruct s; [done | simpl; lia]).
  rewrite (proj2 (Nat.ltb_lt _ _)), (proj2 (Nat.ltb_lt _ _)) by done. done.
Qed.

Lemma validate_length_rejects (s : JsString) :
  ¬ (s ≠ [] ∧ length s < 100) → validate_length s = None.
Proof.
  intros Hno. unfold validate_length.
  destruct (0 <? length s) eqn:Hpos; [|done].
  destruct (length s <? 100) eqn:Hlen; [|done].
  destruct Hno. apply Nat.ltb_lt in Hpos, Hlen.
  split; [|done]. intros ->. simpl in Hpos. lia.
Qed.

Lemma validate_length_spec (s : JsString) :
  validate_length s
  = if decide (s ≠ [] ∧ length s < 100) then Some s else None.
Proof.
  destruct (decide (s ≠ [] ∧ length s < 100)) as [[Hne Hlen] | Hno].
  - by apply validate_length_accepts.
  - by apply validate_length_rejects.
Qed.

(** ** What [trim] removes *)

(** [trimStart] cuts a run of white space off the front, and what is left
    does not start with white space. *)
Lemma trimStart_split (s : JsString) :
  ∃ ws, s = ws ++ trimStart s ∧ Forall (λ c, is_white_space c = true) ws.
Proof.
  induction s as [|c s (ws & Hs & Hws)]; [by exists []|]. simpl.
  destruct (is_white_space c) eqn:Hc.
  - exists (c :: ws). split; [by rewrite Hs at 1 | by constructor].
  - by exists [].
Qed.

Lemma trimStart_head (s : JsString) (c : N) :
  head (trimStart s) = Some c → is_white_space c = false.
Proof.
  induction s as [|d s IH]; [done|]. simpl.
  destruct (is_white_space d) eqn:Hd; [done|]. by intros [= <-].
Qed.

Lemma trimEnd_split (s : JsString) :
  ∃ ws, s = trimEnd s ++ ws ∧ Forall (λ c, is_white_space c = true) ws.
Proof.
  destruct (trimStart_split (reverse s)) as (ws & Hs & Hws).
  exists (reverse ws). split.
  - unfold trimEnd. rewrite <- reverse_app, <- Hs. by rewrite reverse_involutive.
  - by apply Forall_reverse.
Qed.

Lemma trimEnd_last (s : JsString) (c : N) :
  last (trimEnd s) = Some c → is_white_space c = false.
Proof. unfold trimEnd. rewrite last_reverse. apply trimStart_head. Qed.

(** [trim s] is [s] without a run of white space at each end, and itself
    neither starts nor ends with white space. *)
Lemma trim_spec (s : JsString) :
  (∃ ws1 ws2, s = ws1 ++ trim s ++ ws2
              ∧ Forall (λ c, is_white_space c = true) ws1
              ∧ Forall (λ c, is_white_space c = true) ws2)
  ∧ (∀ c, head (trim s) = Some c → is_white_space c = false)
  ∧ (∀ c, last (trim s) = Some c → is_white_space c = false).
Proof.
  destruct (trimStart_split s) as (ws1 & Hs & Hws1).
  destruct (trimEnd_split (trimStart s)) as (ws2 & Ht & Hws2).
  split_and!.
  - exists ws1, ws2. unfold trim. by rewrite <- Ht.
  - intros c Hc. apply (trimStart_head s). unfold trim in Hc.
    rewrite Ht. by destruct (trimEnd (trimStart s)).
  - intros c. apply trimEnd_last.
Qed.

Section Generator.

Variable SdkOptions : Type.
Variable getDefaultOptions : SdkOptions.
Variable getDefaultSummarizationModel : JsString.
Variable query : JsString → SdkOptions → JsString → nat → QueryRun.
Variable fetch_chat_completions :
  JsString → JsString → JsString → JsString → ChatResponse.

Local Abbreviation generateSessionTitle :=
  (generateSessionTitle SdkOptions getDefaultOptions
     getDefaultSummarizationModel query fetch_chat_completions).
Local Abbreviation returned_text :=
  (returned_text SdkOptions getDefaultOptions
     getDefaultSummarizationModel query fetch_chat_completions).

(** The generator is the collaborator's text, trimmed and validated. *)
Lemma generate_by_returned_text (userMessage : JsString)
    (options : option TitleGeneratorOptions) :
  generateSessionTitle userMessage options
  = returned_text userMessage options ≫= λ text, validate_length (trim text).
Proof.
  unfold TitleGenerator.generateSessionTitle, TitleGenerator.returned_text,
    generateTitleWithOpenAI.
  destruct (default anthropic (options ≫= provider)),
    (options ≫= credentials) as [creds|]; simpl;
    try (by destruct (throws _)).
  destruct (authToken creds) as [token|]; [|done].
  destruct (fetch_chat_completions _ _ _ _) as [| |[[|c text]|]]; done.
Qed.

(** A returned title is the trimmed text of the collaborator, and passed
    the length check. *)
Lemma generate_Some_inv (userMessage : JsString)
    (options : option TitleGeneratorOptions) (title : JsString) :
  generateSessionTitle userMessage options = Some title →
  ∃ text, returned_text userMessage options = Some text
          ∧ title = trim text ∧ title ≠ [] ∧ length title < 100.
Proof.
  rewrite generate_by_returned_text.
  destruct (returned_text userMessage options) as [text|]; simpl; [|done].
  rewrite validate_length_spec.
  destruct (decide (trim text ≠ [] ∧ length (trim text) < 100))
    as [[Hne Hlen] | Hno]; [|done].
  intros [= <-]. by exists text.
Qed.

(** ** Trimming, said without [trim] *)

Lemma trimStart_white (ws s : JsString) :
  Forall (λ c, is_white_space c = true) ws → trimStart (ws ++ s) = trimStart s.
Proof. induction 1 as [|c ws Hc _ IH]; [done|]. simpl. by rewrite Hc. Qed.

Lemma trimStart_id (s : JsString) :
  (∀ c, head s = Some c → is_white_space c = false) → trimStart s = s.
Proof. destruct s as [|c s]; [done|]. intros Hc. simpl. by rewrite Hc. Qed.

Lemma trimStart_all_white (ws : JsString) :
  Forall (λ c, is_white_space c = true) ws → trimStart ws = [].
Proof. induction 1 as [|c ws Hc _ IH]; [done|]. simpl. by rewrite Hc. Qed.

(** [trim text] is the trimmed form of [text], and the only one. *)
Lemma trimmed_form_trim (text : JsString) : trimmed_form text (trim text).
Proof.
  destruct (trim_spec text) as ((ws1 & ws2 & ? & ? & ?) & ? & ?).
  split_and!; [by exists ws1, ws2 | done | done].
Qed.

Lemma trimmed_form_unique (text title : JsString) :
  trimmed_form text title → title = trim text.
Proof.
  intros ((before & after & -> & Hb & Ha) & Hhead & Hlast).
  unfold trim. rewrite trimStart_white by done.
  destruct title as [|c title].
  - rewrite app_nil_l, trimStart_all_white by done. done.
  - rewrite (trimStart_id ((c :: title) ++ after))
      by (intros c' [= <-]; by apply Hhead).
    unfold trimEnd. rewrite reverse_app.
    rewrite trimStart_white by (by apply Forall_reverse).
    rewrite trimStart_id; [by rewrite reverse_involutive|].
    intros c'. rewrite <- last_reverse, reverse_involutive. apply Hlast.
Qed.

(** The text [collect_title] builds is the concatenation of the assistant
    messages' text blocks. *)
Lemma collect_title_texts (messages : list SDKMessage) :
  collect_title messages = concat (assistant_texts messages).
Proof.
  unfold collect_title, assistant_texts.
  induction messages as [|m rest IH]; [done|].
  rewrite fmap_cons, bind_cons, concat_cons, concat_app, IH. f_equal.
  destruct m as [content|]; [|done]. cbn [message_text].
  induction content as [|b content IHc]; [done|].
  rewrite fmap_cons, bind_cons, concat_cons, concat_app, IHc.
  destruct b; simpl; by rewrite ?app_nil_r.
Qed.

(** The answer to a text: its trimmed form when that passes the length
    check, null otherwise. *)
Lemma validate_trimmed (text : JsString) :
  ∃ title,
    trimmed_form text title
    ∧ validate_length (trim text)
      = if decide (title ≠ [] ∧ length title < 100) then Some title else None.
Proof.
  exists (trim text). split; [apply trimmed_form_trim | apply validate_length_spec].
Qed.

(** C9: the title generator trims the text its collaborator returns and
    accepts it exactly when the trimmed text is non-empty and shorter than
    100 code units; in every other case it answers null, and no case raises
    (the generator is a total function).  Spelt out by collaborator:
    - the SDK (every call but those with provider 'openai' and credentials):
      a query that throws gives null; a query that finishes returns the
      concatenated text blocks of its assistant messages;
    - the chat-completions endpoint (provider 'openai' with credentials):
      no usable API key or access token gives null, and so do a request that
      fails, a response that is not ok, and a response without content;
      otherwise the content of the first choice is the text returned.
    "Trimmed" is [trimmed_form]: the text without the white space at its two
    ends, which determines the title ([trimmed_form_unique]). *)
Theorem title_is_trimmed_and_validated (userMessage : JsString)
    (options : option TitleGeneratorOptions) :
  let result := generateSessionTitle userMessage options in
  let prompt := title_prompt userMessage in
  let model := title_model getDefaultSummarizationModel options in
  (¬ (options ≫= provider = Some openai ∧ is_Some (options ≫= credentials)) →
     let run := query prompt getDefaultOptions model 1 in
     (throws run = true → result = None)
     ∧ (throws run = false →
          ∃ title,
            trimmed_form (concat (assistant_texts (yielded run))) title
            ∧ result = if decide (title ≠ [] ∧ length title < 100)
                       then Some title else None))
  ∧ (∀ creds,
       options ≫= provider = Some openai →
       options ≫= credentials = Some creds →
       ((apiKey creds = None ∨ apiKey creds = Some []) →
        (accessToken creds = None ∨ accessToken creds = Some []) →
        result = None)
       ∧ (∀ token,
            (apiKey creds = Some token ∧ token ≠ [])
            ∨ ((apiKey creds = None ∨ apiKey creds = Some [])
               ∧ accessToken creds = Some token ∧ token ≠ []) →
            match fetch_chat_completions
                    (default (of_string "https://api.openai.com/v1")
                             (options ≫= baseUrl)
                     ++ of_string "/chat/completions")
                    token model prompt with
            | Choice (Some text) =>
                ∃ title,
                  trimmed_form text title
                  ∧ result = if decide (title ≠ [] ∧ length title < 100)
                             then Some title else None
            | Choice None | RequestFails | NotOk => result = None
            end)).
Proof.
  cbv zeta. unfold TitleGenerator.generateSessionTitle. split.
  - destruct (options ≫= provider) as [[|]|];
      destruct (options ≫= credentials) as [creds|]; cbn [default];
      intros Hsdk;
      try (split;
           [ by intros ->
           | intros ->; rewrite collect_title_texts; apply validate_trimmed ]).
    destruct Hsdk. split; [done | by eexists].
  - intros creds Hp Hc. rewrite Hp, Hc. cbn [default].
    unfold generateTitleWithOpenAI, authToken, chat_completions_url. split.
    + by intros [-> | ->] [-> | ->].
    + intros token Htoken.
      assert (Hauth : truthy (match truthy (apiKey creds) with
                              | Some k => Some k
                              | None => accessToken creds
                              end) = Some token).
      { destruct Htoken as [[-> Hne] | ([-> | ->] & -> & Hne)];
          by destruct token. }
      rewrite Hauth.
      destruct (fetch_chat_completions _ _ _ _) as [| |[text|]]; [done | done | | done].
      destruct text as [|c text].
      * exists []. split; [apply (trimmed_form_trim [])|]. done.
      * apply validate_trimmed.
Qed.

(** Every title the generator returns is non-empty, shorter than 100 code
    units, and neither starts nor ends with white space. *)
Theorem returned_title_is_clean (userMessage : JsString)
    (options : option TitleGeneratorOptions) (title : JsString) :
  generateSessionTitle userMessage options = Some title →
  0 < length title < 100
  ∧ (∀ c, head title = Some c → is_white_space c = false)
  ∧ (∀ c, last title = Some c → is_white_space c = false).
Proof.
  intros Hret.
  apply generate_Some_inv in Hret as (text & _ & -> & Hne & Hlen).
  destruct (trim_spec text) as (_ & Hhead & Hlast).
  split_and!; [|done|done|done].
  destruct (trim text); [done | simpl; lia].
Qed.

End Generator.

Lemma returned_title_is_clean_witness :
  0 < length (of_string "Fix authentication bug") < 100.
Proof.
  apply (returned_title_is_clean unit tt (of_string "model")
           (sdk_answering ([32; 32]%N ++ of_string "Fix authentication bug"
                           ++ [10]%N))
           endpoint_down (of_string "the login page is broken") None
           (of_string "Fix authentication bug")).
  reflexivity.
Defined.

(** Three runs of the generator with the Claude SDK as collaborator: an
    answer padded with blanks and a line break is returned trimmed, an
    answer in two text blocks among other blocks and messages is put
    together, and a query that throws gives null even though it had yielded
    a usable text. *)
Example title_from_padded_answer :
  generateSessionTitle unit tt (of_string "model") 
    (sdk_answering ([32; 32]%N ++ of_string "Fix authentication bug" ++ [10]%N))
    endpoint_down (of_string "the login page is broken") None
  = Some (of_string "Fix authentication bug").
Proof. reflexivity. Qed.

Example title_from_pieces :
  generateSessionTitle unit tt (of_string "model")
    (sdk_answering_in_pieces (of_string " Fix authen")
                             (of_string "tication bug  "))
    endpoint_down (of_string "the login page is broken") None
  = Some (of_string "Fix authentication bug").
Proof. reflexivity. Qed.

Example title_from_throwing_query :
  generateSessionTitle unit tt (of_string "model")
    (sdk_throwing (of_string "Fix authentication bug"))
    endpoint_down (of_string "the login page is broken") None
  = None.
Proof. reflexivity. Qed.

End TitleGeneratorSpec.

(* ===================================================================== *)
(** * The title generator: prompts, routing, credentials *)
(* ===================================================================== *)

Module TitleGeneratorRules.

Import TitleGenerator.

(** ** The size of the prompts *)

Lemma join_with_bounded (parts : list JsString) :
  Forall (λ p, length p ≤ 300) parts →
  length (join_with [10%N; 10%N] parts) ≤ 302 * length parts.
Proof.
  induction 1 as [|p rest Hp _ IH]; [done|].
  destruct rest as [|q rest]; cbn [join_with] in *.
  - cbn [length]. lia.
  - rewrite !length_app. cbn [length] in *. lia.
Qed.

Lemma join_with_length (msgs : list JsString) :
  length (join_with [10%N; 10%N] ((λ msg, take 300 msg) <$> msgs))
  ≤ 302 * length msgs.
Proof.
  rewrite <- (length_fmap (λ msg : JsString, take 300 msg) msgs).
  apply join_with_bounded, Forall_fmap, Forall_forall.
  intros msg _. simpl. rewrite length_take. lia.
Qed.

(** The prompt of [generateSessionTitle] is 257 code units of fixed text
    around the first 500 code units of the user's message; the prompt of
    [regenerateSessionTitle] has at most 860 code units beside at most 302
    for each recent message. *)
Theorem prompts_are_bounded (userMessage : JsString)
    (recentUserMessages : list JsString) (lastAssistantResponse : JsString) :
  length (title_prompt userMessage) = 257 + (length userMessage `min` 500)
  ∧ length (title_prompt userMessage) ≤ 757
  ∧ length (regenerate_prompt recentUserMessages lastAssistantResponse)
    ≤ 860 + 302 * length recentUserMessages.
Proof.
  assert (Htitle : length (title_prompt userMessage)
                   = 257 + (length userMessage `min` 500)).
  { unfold title_prompt. cbn [join_lines].
    rewrite !length_app, length_take.
    cbn [length].
    repeat match goal with
           | |- context [length (of_string ?s)] =>
               let n := eval vm_compute in (length (of_string s)) in
               change (length (of_string s)) with n
           end.
    lia. }
  split_and!; [exact Htitle | lia |].
  pose proof (join_with_length recentUserMessages) as Hjoin.
  unfold regenerate_prompt. cbn [join_lines].
  rewrite !length_app, length_take. cbn [length].
  repeat match goal with
         | |- context [length (of_string ?s)] =>
             let n := eval vm_compute in (length (of_string s)) in
             change (length (of_string s)) with n
         end.
  lia.
Qed.

Section Generator.

Variable SdkOptions : Type.
Variable getDefaultOptions : SdkOptions.
Variable getDefaultSummarizationModel : JsString.

(** The two title functions, with the collaborators left open. *)
Local Abbreviation generate query fetch :=
  (generateSessionTitle SdkOptions getDefaultOptions
     getDefaultSummarizationModel query fetch).
Local Abbreviation regenerate query fetch :=
  (regenerateSessionTitle SdkOptions getDefaultOptions
     getDefaultSummarizationModel query fetch).

(** ** What is read of the messages *)

Lemma title_prompt_take (userMessage : JsString) :
  title_prompt (take 500 userMessage) = title_prompt userMessage.
Proof. unfold title_prompt. by rewrite take_take, Nat.min_id. Qed.

Lemma regenerate_prompt_take (msgs : list JsString) (response : JsString) :
  regenerate_prompt ((λ msg, take 300 msg) <$> msgs) (take 500 response)
  = regenerate_prompt msgs response.
Proof.
  assert (Hcut : (λ msg : list N, take 300 msg)
                   <$> ((λ msg : list N, take 300 msg) <$> msgs)
                 = (λ msg : list N, take 300 msg) <$> msgs).
  { rewrite <- list_fmap_compose. apply list_fmap_ext. intros _ msg _. simpl.
    by rewrite take_take, Nat.min_id. }
  unfold regenerate_prompt. by rewrite Hcut, take_take, Nat.min_id.
Qed.

(** Only the first 500 code units of the user's message reach
    [generateSessionTitle]'s answer, and only the first 300 of each recent
    message and the first 500 of the assistant's response reach
    [regenerateSessionTitle]'s: the answer for the cut input is the answer
    for the whole input, with any collaborators. *)
Theorem only_prefixes_are_read
    (query : JsString → SdkOptions → JsString → nat → QueryRun)
    (fetch : JsString → JsString → JsString → JsString → ChatResponse)
    (options : option TitleGeneratorOptions) (userMessage : JsString)
    (recentUserMessages : list JsString) (lastAssistantResponse : JsString) :
  generate query fetch (take 500 userMessage) options
  = generate query fetch userMessage options
  ∧ regenerate query fetch ((λ msg, take 300 msg) <$> recentUserMessages)
               (take 500 lastAssistantResponse) options
    = regenerate query fetch recentUserMessages lastAssistantResponse options.
Proof.
  unfold generateSessionTitle, regenerateSessionTitle.
  by rewrite title_prompt_take, regenerate_prompt_take.
Qed.

(** ** Which collaborator is consulted *)

(** The options select one collaborator: the chat-completions endpoint when
    the provider is 'openai' and credentials are given, the SDK's query in
    every other case.  Both title functions depend on the selected
    collaborator only: replacing the other one changes no answer. *)
Theorem one_collaborator_is_consulted
    (query1 query2 : JsString → SdkOptions → JsString → nat → QueryRun)
    (fetch1 fetch2 : JsString → JsString → JsString → JsString → ChatResponse)
    (options : option TitleGeneratorOptions) (userMessage : JsString)
    (recentUserMessages : list JsString) (lastAssistantResponse : JsString) :
  match default anthropic (options ≫= provider), options ≫= credentials with
  | openai, Some _ => fetch1 = fetch2
  | _, _ => query1 = query2
  end →
  generate query1 fetch1 userMessage options
  = generate query2 fetch2 userMessage options
  ∧ regenerate query1 fetch1 recentUserMessages lastAssistantResponse options
    = regenerate query2 fetch2 recentUserMessages lastAssistantResponse options.
Proof.
  unfold generateSessionTitle, regenerateSessionTitle.
  destruct (default anthropic (options ≫= provider)),
    (options ≫= credentials) as [creds|]; by intros ->.
Qed.

(** With the provider 'openai' and a credentials object that holds neither
    an API key nor an access token (each missing or empty), both title
    functions answer null: the endpoint is not asked, and the SDK is not
    used in its place. *)
Theorem empty_credentials_give_no_title
    (query : JsString → SdkOptions → JsString → nat → QueryRun)
    (fetch : JsString → JsString → JsString → JsString → ChatResponse)
    (options : TitleGeneratorOptions) (creds : OpenAICredentials)
    (userMessage : JsString) (recentUserMessages : list JsString)
    (lastAssistantResponse : JsString) :
  provider options = Some openai →
  credentials options = Some creds →
  apiKey creds = None ∨ apiKey creds = Some [] →
  accessToken creds = None ∨ accessToken creds = Some [] →
  generate query fetch userMessage (Some options) = None
  ∧ regenerate query fetch recentUserMessages lastAssistantResponse
               (Some options) = None.
Proof.
  intros Hprovider Hcreds Hkey Htoken.
  assert (Hauth : authToken creds = None).
  { unfold authToken. by destruct Hkey as [-> | ->], Htoken as [-> | ->]. }
  unfold generateSessionTitle, regenerateSessionTitle, generateTitleWithOpenAI.
  cbn [mbind option_bind]. by rewrite Hprovider, Hcreds, Hauth.
Qed.

(** Every title [regenerateSessionTitle] returns is non-empty, shorter than
    100 code units, and neither starts nor ends with white space. *)
Theorem regenerated_title_is_clean
    (query : JsString → SdkOptions → JsString → nat → QueryRun)
    (fetch : JsString → JsString → JsString → JsString → ChatResponse)
    (options : option TitleGeneratorOptions)
    (recentUserMessages : list JsString) (lastAssistantResponse : JsString)
    (title : JsString) :
  regenerate query fetch recentUserMessages lastAssistantResponse options
  = Some title →
  0 < length title < 100
  ∧ (∀ c, head title = Some c → is_white_space c = false)
  ∧ (∀ c, last title = Some c → is_white_space c = false).
Proof.
  intros Hret.
  assert (Hvalid : ∃ text, validate_length (trim text) = Some title).
  { unfold regenerateSessionTitle, generateTitleWithOpenAI in Hret.
    destruct (default anthropic (options ≫= provider)),
      (options ≫= credentials) as [creds|];
      try (destruct (throws _); [done | by eexists]).
    destruct (authToken creds); [|done].
    destruct (fetch _ _ _ _) as [| |content]; [done | done |].
    destruct (truthy content); [by eexists | done]. }
  destruct Hvalid as [text Hvalid].
  rewrite TitleGeneratorSpec.validate_length_spec in Hvalid.
  destruct (decide (trim text ≠ [] ∧ length (trim text) < 100))
    as [[Hne Hlen] | ]; [|done].
  injection Hvalid as <-.
  destruct (TitleGeneratorSpec.trim_spec text) as (_ & Hhead & Hlast).
  split_and!; [|done|done|done].
  destruct (trim text); [done | simpl; lia].
Qed.

End Generator.

Lemma one_collaborator_is_consulted_witness :
  generateSessionTitle unit tt (of_string "model")
    (sdk_answering (of_string "Fix authentication bug"))
    endpoint_down (of_string "the login page is broken") None
  = generateSessionTitle unit tt (of_string "model")
      (sdk_answering (of_string "Fix authentication bug"))
      (endpoint_answering (of_string "Add dark mode"))
      (of_string "the login page is broken") None.
Proof.
  apply (one_collaborator_is_consulted unit tt (of_string "model")
           (sdk_answering (of_string "Fix authentication bug"))
           (sdk_answering (of_string "Fix authentication bug"))
           endpoint_down (endpoint_answering (of_string "Add dark mode"))
           None (of_string "the login page is broken") [] []).
  reflexivity.
Defined.

Lemma empty_credentials_give_no_title_witness :
  generateSessionTitle unit tt (of_string "model")
    (sdk_answering (of_string "Fix authentication bug"))
    (endpoint_answering (of_string "Add dark mode"))
    (of_string "the login page is broken")
    (Some (openai_options {| apiKey := Some []; accessToken := None |}))
  = None.
Proof.
  apply (empty_credentials_give_no_title unit tt (of_string "model")
           (sdk_answering (of_string "Fix authentication bug"))
           (endpoint_answering (of_string "Add dark mode"))
           (openai_options {| apiKey := Some []; accessToken := None |})
           {| apiKey := Some []; accessToken := None |}
           (of_string "the login page is broken") [] []);
    [reflexivity | reflexivity | by right | by left].
Defined.

Lemma regenerated_title_is_clean_witness :
  0 < length (of_string "Add dark mode") < 100.
Proof.
  apply (regenerated_title_is_clean unit tt (of_string "model")
           (sdk_answering (of_string "Fix authentication bug"))
           (endpoint_answering ([9]%N ++ of_string "Add dark mode" ++ [13; 10]%N))
           (Some (openai_options {| apiKey := None;
                                    accessToken := Some (of_string "token") |}))
           [of_string "make it dark"] (of_string "Sure.")
           (of_string "Add dark mode")).
  reflexivity.
Defined.

End TitleGeneratorRules.

(* ===================================================================== *)
(** * Properties of the session metadata diff *)
(* ===================================================================== *)

Module SessionMetadataSpec.

Import SessionMetadata.

Section Store.

Context {Value : Type} `{EqDecision Value}.
Variable event_of_field : string → option string.

Local Abbreviation update_field := (update_field event_of_field).
Local Abbreviation updateSessionMetadata :=
  (updateSessionMetadata event_of_field).

(** Fields set to the value they already hold change nothing. *)
Lemma foldl_unchanged (partialMetadata : list (string * Value))
    (stored : gmap string Value) (emitted : list Emission) :
  (∀ field v, (field, v) ∈ partialMetadata → stored !! field = Some v) →
  foldl update_field (stored, emitted) partialMetadata = (stored, emitted).
Proof.
  induction partialMetadata as [|[field v] rest IH]; intros Hsame; [done|].
  cbn [foldl]. unfold SessionMetadata.update_field at 2.
  assert (Hv : stored !! field = Some v) by (apply Hsame; by left).
  rewrite Hv, decide_True, insert_id by done.
  apply IH. intros f w Hin. apply Hsame. by right.
Qed.

(** What has been emitted stays emitted. *)
Lemma foldl_keeps_emitted (partialMetadata : list (string * Value))
    (stored : gmap string Value) (emitted : list Emission) (e : Emission) :
  e ∈ emitted → e ∈ (foldl update_field (stored, emitted) partialMetadata).2.
Proof.
  revert stored emitted.
  induction partialMetadata as [|[field v] rest IH]; intros stored emitted He;
    [done|].
  cbn [foldl]. unfold SessionMetadata.update_field at 2.
  apply IH.
  destruct (decide (stored !! field = Some v)); [done|].
  destruct (event_of_field field); [|done].
  apply elem_of_app. by left.
Qed.

(** A field whose value changes emits its event, with the value stored
    before the update and the new value. *)
Lemma foldl_emits_change (partialMetadata : list (string * Value))
    (stored : gmap string Value) (emitted : list Emission)
    (field : string) (v : Value) (ev : string) :
  NoDup partialMetadata.*1 →
  (field, v) ∈ partialMetadata →
  stored !! field ≠ Some v →
  event_of_field field = Some ev →
  {| event := ev;
     payload := {| oldState := stored !! field; newState := v |} |}
  ∈ (foldl update_field (stored, emitted) partialMetadata).2.
Proof.
  revert stored emitted.
  induction partialMetadata as [|[field' v'] rest IH];
    intros stored emitted Hnd Hin Hchanged Hev;
    [by apply elem_of_nil in Hin|].
  rewrite fmap_cons in Hnd. apply NoDup_cons in Hnd as [Hfresh Hnd].
  cbn [foldl]. unfold SessionMetadata.update_field at 2.
  apply elem_of_cons in Hin as [[= <- <-] | Hin].
  - apply foldl_keeps_emitted.
    rewrite decide_False, Hev by done.
    apply elem_of_app. right. by left.
  - assert (Hne : field' ≠ field).
    { intros ->. apply Hfresh. by apply (list_elem_of_fmap_2 fst) in Hin. }
    rewrite <- (lookup_insert_ne stored field' field v') by done.
    apply IH; [done | done | | done].
    by rewrite lookup_insert_ne.
Qed.

(** C3: for a registered session and a partial update (the fields of a
    JavaScript object, so pairwise distinct), [updateSessionMetadata]
    returns; when every supplied value equals the stored one, it returns the
    empty list, emits nothing on the event bus and leaves the controller as
    it was; and every field whose value changed, and that is mapped to an
    event, has that event in the returned list and on the bus, with a
    payload whose [oldState] is the value stored before the call (unset
    when there was none) and whose [newState] is the supplied value. *)
Theorem update_emits_exactly_on_change (sys : HookSystem) (sessionId : string)
    (stored : gmap string Value) (partialMetadata : list (string * Value)) :
  sessions sys !! sessionId = Some stored →
  NoDup partialMetadata.*1 →
  ∃ events emitted sys',
    updateSessionMetadata sessionId partialMetadata sys = Some (events, sys')
    ∧ eventBus sys' = eventBus sys ++ emitted
    ∧ events = event <$> emitted
    ∧ ((∀ field v, (field, v) ∈ partialMetadata → stored !! field = Some v) →
         events = [] ∧ emitted = [] ∧ sys' = sys)
    ∧ (∀ field v ev,
         (field, v) ∈ partialMetadata →
         stored !! field ≠ Some v →
         event_of_field field = Some ev →
         ev ∈ events
         ∧ {| event := ev;
              payload := {| oldState := stored !! field; newState := v |} |}
           ∈ emitted).
Proof.
  intros Hreg Hnd. unfold SessionMetadata.updateSessionMetadata. rewrite Hreg.
  destruct (foldl update_field (stored, []) partialMetadata)
    as [merged emitted] eqn:Hfold.
  exists (event <$> emitted), emitted,
    {| sessions := <[sessionId := merged]> (sessions sys);
       eventBus := eventBus sys ++ emitted |}.
  split_and!; [done | done | done | | ].
  - intros Hsame. rewrite (foldl_unchanged _ _ _ Hsame) in Hfold.
    injection Hfold as <- <-. split_and!; [done | done |].
    rewrite insert_id, app_nil_r by done. by destruct sys.
  - intros field v ev Hin Hchanged Hev.
    pose proof (foldl_emits_change partialMetadata stored [] field v ev
                  Hnd Hin Hchanged Hev) as Hem.
    rewrite Hfold in Hem. cbn [snd] in Hem. split; [|done].
    by apply (list_elem_of_fmap_2 event) in Hem.
Qed.

End Store.

(** The scenario of the tests: session [s1] starts with status [backlog]
    and is updated to [todo]. *)
Lemma update_emits_exactly_on_change_witness :
  ∃ events emitted sys',
    updateSessionMetadata status_field_event "s1" [("todoState", "todo")]
                          backlog_system
    = Some (events, sys')
    ∧ "StatusStateChange" ∈ events
    ∧ {| event := "StatusStateChange";
         payload := {| oldState := Some "backlog"; newState := "todo" |} |}
      ∈ emitted
    ∧ eventBus sys' = eventBus backlog_system ++ emitted.
Proof.
  destruct (update_emits_exactly_on_change status_field_event backlog_system
              "s1" {[ "todoState" := "backlog" ]} [("todoState", "todo")])
    as (events & emitted & sys' & Hret & Hbus & _ & _ & Hchange).
  - reflexivity.
  - compute_done.
  - destruct (Hchange "todoState" "todo" "StatusStateChange")
      as [Hev Hem]; [by left | discriminate | reflexivity |].
    exists events, emitted, sys'. done.
Defined.

End SessionMetadataSpec.
